(** * crypto-tracker: the chart, the formatters and the two data stores

    A shallow embedding of the parts of the React application that carry
    its arithmetic and its state transitions:

    - [Number]     the JavaScript numbers the components compute with;
    - [Text]       [toFixed], [Intl.NumberFormat] (en-US, USD),
                   [toLowerCase] and [includes];
    - [CryptoCard] [formatPrice] of components/CryptoCard.jsx;
    - [CryptoModal] [formatPrice], [renderChart] and the component state
                   of components/CryptoModal.jsx;
    - [App]        [fetchCryptos], the search filter and the render gate
                   of App.jsx.

    Numbers are idealised: a finite value is an exact rational (no
    rounding to 53 bits, no overflow, a single zero), next to [NaN] and
    the two infinities, whose arithmetic follows IEEE 754.  [toFixed] is
    modelled below 10^21, where it prints positional digits.  The code
    computes in doubles, which round; the theorems on the chart and on
    the formatters are therefore stated on what rounding keeps: values
    at inputs where each operation is exact, orders and bounds, the
    form of a printed figure, and the expression the code computes a
    value by, rather than a closed form of it.

    Strings are bytes.  [toLowerCase] and [toUpperCase] change ASCII
    letters only; a theorem that needs more of them than the code's own
    calls is stated for ASCII text ([Text.ascii_only]). *)

From Stdlib Require Import ZArith QArith Qcanon Qround Lqa.
From Stdlib Require Import List String Ascii Bool Lia.
From Stdlib Require Import DecimalString.
From Stdlib Require DecimalFacts DecimalPos DecimalN.
Import ListNotations.

Local Open Scope Z_scope.

(* ------------------------------------------------------------------ *)
(** ** JavaScript numbers *)

Module Number.

Inductive num : Type :=
| NaN
| Inf (positive : bool)
| Fin (q : Qc).

Definition of_Z (z : Z) : num := Fin (Q2Qc (inject_Z z)).
Definition of_nat (n : nat) : num := of_Z (Z.of_nat n).
Definition of_Q (q : Q) : num := Fin (Q2Qc q).

Definition Qc_ltb (x y : Qc) : bool :=
  match (x ?= y)%Qc with Lt => true | _ => false end.
Definition Qc_leb (x y : Qc) : bool :=
  match (x ?= y)%Qc with Gt => false | _ => true end.
Definition Qc_is0 (x : Qc) : bool := Qc_eq_bool x 0%Qc.

(** [a + b] *)
Definition add (a b : num) : num :=
  match a, b with
  | NaN, _ | _, NaN => NaN
  | Inf s, Inf t => if Bool.eqb s t then Inf s else NaN
  | Inf s, Fin _ | Fin _, Inf s => Inf s
  | Fin x, Fin y => Fin (x + y)%Qc
  end.

(** [- a] *)
Definition neg (a : num) : num :=
  match a with
  | NaN => NaN
  | Inf s => Inf (negb s)
  | Fin x => Fin (- x)%Qc
  end.

(** [a - b] *)
Definition sub (a b : num) : num := add a (neg b).

(** [a * b] *)
Definition mul (a b : num) : num :=
  match a, b with
  | NaN, _ | _, NaN => NaN
  | Inf s, Inf t => Inf (Bool.eqb s t)
  | Inf s, Fin y | Fin y, Inf s =>
      if Qc_is0 y then NaN else Inf (Bool.eqb s (Qc_ltb 0%Qc y))
  | Fin x, Fin y => Fin (x * y)%Qc
  end.

(** [a / b]; the only zero is the positive one, so [x / 0] takes the
    sign of [x] and [0 / 0] is [NaN]. *)
Definition div (a b : num) : num :=
  match a, b with
  | NaN, _ | _, NaN => NaN
  | Inf _, Inf _ => NaN
  | Inf s, Fin y => Inf (Bool.eqb s (Qc_leb 0%Qc y))
  | Fin _, Inf _ => Fin 0%Qc
  | Fin x, Fin y =>
      if Qc_is0 y
      then (if Qc_is0 x then NaN else Inf (Qc_ltb 0%Qc x))
      else Fin (x / y)%Qc
  end.

(** [a < b]: false as soon as one side is [NaN]. *)
Definition ltb (a b : num) : bool :=
  match a, b with
  | NaN, _ | _, NaN => false
  | Inf true, _ => false
  | Inf false, Inf false => false
  | Inf false, _ => true
  | Fin _, Inf s => s
  | Fin x, Fin y => Qc_ltb x y
  end.

(** [a === b] on numbers. *)
Definition eqb (a b : num) : bool :=
  match a, b with
  | Inf s, Inf t => Bool.eqb s t
  | Fin x, Fin y => Qc_eq_bool x y
  | _, _ => false
  end.

(** [a >= b] *)
Definition geb (a b : num) : bool := ltb b a || eqb a b.

(** [a <= b] *)
Definition leb (a b : num) : bool := ltb a b || eqb a b.

(** Truthiness of a number: [0] and [NaN] are falsy. *)
Definition truthy (a : num) : bool :=
  match a with
  | NaN => false
  | Inf _ => true
  | Fin x => negb (Qc_is0 x)
  end.

(** [a || b] on numbers. *)
Definition or_else (a b : num) : num := if truthy a then a else b.

Definition min2 (a b : num) : num :=
  match a, b with
  | NaN, _ | _, NaN => NaN
  | _, _ => if ltb b a then b else a
  end.

Definition max2 (a b : num) : num :=
  match a, b with
  | NaN, _ | _, NaN => NaN
  | _, _ => if ltb a b then b else a
  end.

(** [Math.min(...l)] and [Math.max(...l)]: the fold starts at the
    infinity that is neutral for it. *)
Definition Math_min (l : list num) : num := fold_left min2 l (Inf true).
Definition Math_max (l : list num) : num := fold_left max2 l (Inf false).

Definition is_NaN (a : num) : bool :=
  match a with NaN => true | _ => false end.

(** [a > b] *)
Definition gtb (a b : num) : bool := ltb b a.

(** [Math.round(a)]: the nearest integer, the larger one on a tie. *)
Definition Math_round (a : num) : num :=
  match a with
  | Fin x => Fin (Q2Qc (inject_Z (Qfloor (x + (1 # 2))%Q)))
  | _ => a
  end.

(** The position an array read [l[a]] looks at: [a] itself when it is a
    non-negative integer, none otherwise. *)
Definition index (a : num) : option nat :=
  match a with
  | Fin x =>
      let z := Qfloor x in
      if Qc_eq_bool (Q2Qc (inject_Z z)) x && (0 <=? z)%Z
      then Some (Z.to_nat z) else None
  | _ => None
  end.

End Number.

Declare Scope num_scope.
Delimit Scope num_scope with num.
Bind Scope num_scope with Number.num.
Infix "+" := Number.add : num_scope.
Infix "-" := Number.sub : num_scope.
Infix "*" := Number.mul : num_scope.
Infix "/" := Number.div : num_scope.
Infix "<?" := Number.ltb : num_scope.
Infix ">=?" := Number.geb (at level 70) : num_scope.
Infix "<=?" := Number.leb : num_scope.
Notation "a '||:' b" := (Number.or_else a b) (at level 50, left associativity) : num_scope.

(* ------------------------------------------------------------------ *)
(** ** Strings produced and compared by the components *)

Module Text.

Import Number.
Local Open Scope string_scope.

Definition chars (s : string) : list ascii := list_ascii_of_string s.
Definition text (l : list ascii) : string := string_of_list_ascii l.

(** [c] is one of 0..9. *)
Definition is_digit (c : ascii) : bool :=
  ((48 <=? nat_of_ascii c) && (nat_of_ascii c <=? 57))%nat.

Definition all_digits (l : list ascii) : Prop :=
  Forall (fun c => is_digit c = true) l.

(** Decimal digits of a natural number, most significant first; zero is
    the single digit 0. *)
Definition digits (n : N) : list ascii :=
  chars (NilZero.string_of_uint (N.to_uint n)).

(** The integer [n] for which [n / 10^f - x] is closest to zero, the
    larger one on a tie ([x] is not negative). *)
Definition round_half_up (x : Qc) (f : nat) : N :=
  Z.to_N (Qfloor (x * inject_Z (10 ^ Z.of_nat f) + (1 # 2))%Q).

(** The digits [m], padded with zeros on the left to more than [f]
    digits and cut before the last [f]: integer part, fraction part. *)
Definition split_digits (m : list ascii) (f : nat)
  : list ascii * list ascii :=
  let m := if (List.length m <=? f)%nat
           then (repeat "0"%char (f + 1 - List.length m) ++ m)%list
           else m in
  let k := List.length m in
  (firstn (k - f) m, skipn (k - f) m).

(** Positional digits of [n / 10^f] with exactly [f] fraction digits;
    no point is written when [f] is zero. *)
Definition place_point (m : list ascii) (f : nat) : list ascii :=
  match f with
  | O => m
  | _ => let (int, frac) := split_digits m f in
         (int ++ "."%char :: frac)%list
  end.

(** [x.toFixed(f)] on a finite [x]: the sign is split off first, so a
    negative value that rounds to zero keeps its minus. *)
Definition toFixedQ (x : Qc) (f : nat) : string :=
  let s := Qc_ltb x 0%Qc in
  let x := if s then (- x)%Qc else x in
  (if s then "-" else "") ++ text (place_point (digits (round_half_up x f)) f).

(** [a.toFixed(f)] *)
Definition toFixed (a : num) (f : nat) : string :=
  match a with
  | NaN => "NaN"
  | Inf true => "Infinity"
  | Inf false => "-Infinity"
  | Fin x => toFixedQ x f
  end.

(** Grouping by three from the right, on the reversed digits. *)
Fixpoint group_rev (l : list ascii) : list ascii :=
  match l with
  | a :: b :: c :: ((_ :: _) as tl) => a :: b :: c :: ","%char :: group_rev tl
  | _ => l
  end.

Definition group (l : list ascii) : list ascii := rev (group_rev (rev l)).

(** The three bytes of the infinity sign in UTF-8. *)
Definition infinity_sign : string :=
  String (ascii_of_nat 226) (String (ascii_of_nat 136)
    (String (ascii_of_nat 158) "")).

(** [new Intl.NumberFormat('en-US', { style: 'currency', currency: 'USD' })
    .format(a)]: two fraction digits, half away from zero, the integer
    part grouped by thousands, the sign before the dollar. *)
Definition intl_usd (a : num) : string :=
  match a with
  | NaN => "$NaN"
  | Inf true => "$" ++ infinity_sign
  | Inf false => "-$" ++ infinity_sign
  | Fin x =>
      let s := Qc_ltb x 0%Qc in
      let x := if s then (- x)%Qc else x in
      let (int, frac) := split_digits (digits (round_half_up x 2)) 2 in
      (if s then "-" else "") ++ "$" ++
      text (group int ++ "."%char :: frac)%list
  end.

(** [c] lowered when it is one of A..Z (ASCII letters only). *)
Definition lower_char (c : ascii) : ascii :=
  let n := nat_of_ascii c in
  if ((65 <=? n) && (n <=? 90))%nat then ascii_of_nat (n + 32) else c.

(** [s.toLowerCase()] *)
Fixpoint toLowerCase (s : string) : string :=
  match s with
  | EmptyString => EmptyString
  | String c s' => String (lower_char c) (toLowerCase s')
  end.

(** [c] raised when it is one of a..z (ASCII letters only). *)
Definition upper_char (c : ascii) : ascii :=
  let n := nat_of_ascii c in
  if ((97 <=? n) && (n <=? 122))%nat then ascii_of_nat (n - 32) else c.

(** [s.toUpperCase()] *)
Fixpoint toUpperCase (s : string) : string :=
  match s with
  | EmptyString => EmptyString
  | String c s' => String (upper_char c) (toUpperCase s')
  end.

(** A count printed inside a template literal or as JSX text. *)
Definition of_count (n : nat) : string := text (digits (N.of_nat n)).

(** The number a string of decimal digits stands for, none when another
    character occurs in it. *)
Definition read_count (s : string) : option N :=
  option_map N.of_uint (NilEmpty.uint_of_string s).

(** The value of a digit, none for another character. *)
Definition digit_value (c : ascii) : option N :=
  if is_digit c then Some (N.of_nat (nat_of_ascii c - 48)) else None.

(** The number a list of decimal digits stands for, read from the left
    onto [acc]; none when another character occurs. *)
Fixpoint read_digits_acc (acc : N) (l : list ascii) : option N :=
  match l with
  | [] => Some acc
  | c :: l' =>
      match digit_value c with
      | Some k => read_digits_acc (10 * acc + k) l'
      | None => None
      end
  end.

Definition read_digits (l : list ascii) : option N := read_digits_acc 0 l.

(** The characters before the first point, and those after it when
    there is one. *)
Fixpoint split_at_point (l : list ascii)
  : list ascii * option (list ascii) :=
  match l with
  | [] => ([], None)
  | c :: l' =>
      if Ascii.eqb c "."%char then ([], Some l')
      else let (a, b) := split_at_point l' in (c :: a, b)
  end.

(** The number with integer digits [a] and [k] fraction digits [b]. *)
Definition decimal_value (a b : N) (k : nat) : Qc :=
  Q2Qc (inject_Z (Z.of_N a)
        + inject_Z (Z.of_N b) / inject_Z (10 ^ Z.of_nat k)).

(** An unsigned decimal literal: [Infinity], or digits with at most one
    point and a digit on one side of it at least. *)
Definition unsigned_literal (l : list ascii) : num :=
  if String.eqb (text l) "Infinity" then Inf true
  else
    match split_at_point l with
    | (int, None) =>
        match int, read_digits int with
        | _ :: _, Some a => Fin (decimal_value a 0 0)
        | _, _ => NaN
        end
    | (int, Some frac) =>
        match int, frac with
        | [], [] => NaN
        | _, _ =>
            match read_digits int, read_digits frac with
            | Some a, Some b => Fin (decimal_value a b (List.length frac))
            | _, _ => NaN
            end
        end
    end.

(** The number a string converts to in a comparison, for the strings
    the components compare: empty, or a decimal literal with an optional
    sign, without exponent and without blanks around it; anything else
    is [NaN]. *)
Definition StringToNumber (s : string) : num :=
  match chars s with
  | [] => Fin 0%Qc
  | c :: l =>
      if Ascii.eqb c "-"%char then neg (unsigned_literal l)
      else if Ascii.eqb c "+"%char then unsigned_literal l
      else unsigned_literal (c :: l)
  end.

(** The long dash the card prints for a missing figure (three bytes in
    UTF-8). *)
Definition dash : string :=
  String (ascii_of_nat 226) (String (ascii_of_nat 128)
    (String (ascii_of_nat 148) "")).

(** [s.includes(t)]: [t] occurs in [s] at some position. *)
Fixpoint includes (s t : string) : bool :=
  String.prefix t s ||
  match s with
  | EmptyString => false
  | String _ s' => includes s' t
  end.

(** [c] is an ASCII character. *)
Definition is_ascii (c : ascii) : bool := (nat_of_ascii c <? 128)%nat.

(** [s] is ASCII text.  On such text [toLowerCase] and [toUpperCase] of
    JavaScript map character by character and change the letters A..Z
    and a..z only, which is what [toLowerCase] and [toUpperCase] above
    do; outside ASCII they also map by context and to several
    characters, which the two functions above do not cover. *)
Definition ascii_only (s : string) : Prop :=
  forallb is_ascii (chars s) = true.

(** [s] is a decimal figure as [toFixed(f)] writes one: an optional
    minus, at least one digit, and, when [f] is not zero, a point and
    exactly [f] digits. *)
Definition decimal_text (f : nat) (s : string) : Prop :=
  exists (sign : string) (int frac : list ascii),
    (sign = "" \/ sign = "-") /\ int <> [] /\ all_digits int /\
    List.length frac = f /\ all_digits frac /\
    s = sign ++ text int ++
        match f with O => "" | S _ => "." ++ text frac end.

End Text.

(* ------------------------------------------------------------------ *)
(** ** Values read from the upstream JSON *)

Module Value.

Import Number.

(** A field of a coin object as the components receive it: missing,
    [null], or a number. *)
Inductive value : Type :=
| Undefined
| Null
| Num (n : num).

(** [!v] *)
Definition falsy (v : value) : bool :=
  match v with
  | Undefined | Null => true
  | Num n => negb (truthy n)
  end.

(** The number a value stands for in a comparison. *)
Definition to_num (v : value) : num :=
  match v with
  | Undefined => NaN
  | Null => Fin 0%Qc
  | Num n => n
  end.

Definition of_Q (q : Q) : value := Num (Number.of_Q q).

End Value.

(* ------------------------------------------------------------------ *)
(** ** A coin object of the markets endpoint *)

Module Coin.

Import Value.

(** The fields the components read. *)
Record coin : Type :=
  { id : string; name : string; symbol : string;
    current_price : value; high_24h : value; low_24h : value }.

End Coin.

(* ------------------------------------------------------------------ *)
(** ** components/CryptoCard.jsx *)

Module CryptoCard.

Import Number Text Value.
Local Open Scope string_scope.

(** [formatPrice(price)] of the card; the options it passes to
    [Intl.NumberFormat] add [minimumFractionDigits: 2], which is the
    default for USD. *)
Definition formatPrice (price : value) : string :=
  if falsy price then "$0.00"
  else
    let p := to_num price in
    if (p <? Number.of_Q (1 # 100))%num then "$" ++ toFixed p 6
    else if (p <? of_Z 1)%num then "$" ++ toFixed p 4
    else if (p <? of_Z 1000)%num then "$" ++ toFixed p 2
    else intl_usd p.

(** [formatLargeNumber(num)] *)
Definition formatLargeNumber (num : value) : string :=
  if falsy num then dash
  else
    let n := to_num num in
    if (n >=? of_Z 1000000000000)%num
    then "$" ++ toFixed (n / of_Z 1000000000000)%num 2 ++ "T"
    else if (n >=? of_Z 1000000000)%num
    then "$" ++ toFixed (n / of_Z 1000000000)%num 2 ++ "B"
    else if (n >=? of_Z 1000000)%num
    then "$" ++ toFixed (n / of_Z 1000000)%num 2 ++ "M"
    else if (n >=? of_Z 1000)%num
    then "$" ++ toFixed (n / of_Z 1000)%num 2 ++ "K"
    else "$" ++ toFixed n 2.

(** [price_change_percentage_24h > 0] *)
Definition isPositive (price_change_percentage_24h : value) : bool :=
  gtb (to_num price_change_percentage_24h) (of_Z 0).

(** The text of the 24h change. *)
Definition changeText (price_change_percentage_24h : value) : string :=
  if falsy price_change_percentage_24h then dash
  else (if isPositive price_change_percentage_24h then "+" else "") ++
       toFixed (to_num price_change_percentage_24h) 2 ++ "%".

(** The class of the 24h change. *)
Definition changeClass (price_change_percentage_24h : value) : string :=
  "card-change " ++
  (if isPositive price_change_percentage_24h then "positive" else "negative").

(** The thresholds of [formatLargeNumber] as fractions. *)
Definition kilo : Qc := Q2Qc 1000.
Definition mega : Qc := Q2Qc 1000000.
Definition giga : Qc := Q2Qc 1000000000.
Definition tera : Qc := Q2Qc 1000000000000.

(** The ranking position as the card prints it. *)
Definition rankText (rank : nat) : string :=
  if (rank <? 10)%nat then "0" ++ of_count rank else of_count rank.

End CryptoCard.

(* ------------------------------------------------------------------ *)
(** ** components/CryptoModal.jsx *)

Module CryptoModal.

Import Number Text Value Coin.
Local Open Scope string_scope.

(** [formatPrice(price)] of the modal. *)
Definition formatPrice (price : value) : string :=
  if falsy price then "$0.00"
  else
    let p := to_num price in
    if (p <? Number.of_Q (1 # 100))%num then "$" ++ toFixed p 6
    else if (p <? of_Z 1)%num then "$" ++ toFixed p 4
    else intl_usd p.

(** One element of [chartData]: [{ date, price }]; the date is kept as
    the timestamp it was built from, and the price, a JSON number, is
    finite. *)
Record point : Type := { date : Z; price : Qc }.

(** [hovered]: [{ ...d, x, y }]. *)
Record hover : Type :=
  { h_date : Z; h_price : Qc; h_x : num; h_y : num }.

(** One transparent [<rect>] of the hover layer with the value its
    [onMouseEnter] stores. *)
Record rect : Type :=
  { r_x : num; r_y : num; r_width : num; r_height : num;
    onMouseEnter : hover }.

(** One horizontal grid line with its label. *)
Record ytick : Type := { t_y : num; t_price : num; t_label : string }.

(** [l.map((d, i) => f d i)] *)
Fixpoint mapi_from {A B : Type} (i : nat) (f : A -> nat -> B) (l : list A)
  : list B :=
  match l with
  | [] => []
  | d :: l' => f d i :: mapi_from (S i) f l'
  end.

Definition mapi {A B : Type} (f : A -> nat -> B) (l : list A) : list B :=
  mapi_from 0 f l.

Definition W : num := of_Z 800.
Definition H : num := of_Z 300.

Module PAD.
Definition top : num := of_Z 20.
Definition right : num := of_Z 20.
Definition bottom : num := of_Z 40.
Definition left : num := of_Z 60.
End PAD.

Definition chartW : num := (W - PAD.left - PAD.right)%num.
Definition chartH : num := (H - PAD.top - PAD.bottom)%num.

Definition yLabels : nat := 5.
Definition yStep : num := (chartH / (of_nat yLabels - of_Z 1))%num.

(** The label of a grid line. *)
Definition yLabel (price : num) : string :=
  if (price >=? of_Z 1000)%num
  then "$" ++ toFixed (price / of_Z 1000)%num 1 ++ "k"
  else if (price <? of_Z 1)%num
       then "$" ++ toFixed price 4
       else "$" ++ toFixed price 0.

Section RenderChart.

Variable chartData : list point.

(** [chartData.length] *)
Definition len : num := of_nat (List.length chartData).

Definition prices : list num := map (fun d => Fin (price d)) chartData.
Definition minP : num := Math_min prices.
Definition maxP : num := Math_max prices.
Definition rangeP : num := ((maxP - minP) ||: of_Z 1)%num.

Definition scaleX (i : nat) : num :=
  (PAD.left + (of_nat i / (len - of_Z 1)) * chartW)%num.

Definition scaleY (p : num) : num :=
  (PAD.top + chartH - ((p - minP) / rangeP) * chartH)%num.

Definition linePath : string :=
  String.concat " "
    (mapi (fun d i =>
             (if Nat.eqb i 0 then "M" else "L") ++ " " ++
             toFixed (scaleX i) 1 ++ "," ++
             toFixed (scaleY (Fin (price d))) 1)
          chartData).

(** [chartData[chartData.length - 1]?.price - chartData[0]?.price >= 0];
    the two reads yield [undefined], and the difference [NaN], on an
    empty array. *)
Definition priceChange : num :=
  match chartData with
  | [] => NaN
  | d0 :: _ => (Fin (price (last chartData d0)) - Fin (price d0))%num
  end.

Definition lineColor : string :=
  if (priceChange >=? of_Z 0)%num then "#00ff88" else "#ff4466".

Definition yTicks : list ytick :=
  map (fun i =>
         let y := (PAD.top + of_nat i * yStep)%num in
         let price :=
           (maxP - (of_nat i / (of_nat yLabels - of_Z 1)) * rangeP)%num in
         {| t_y := y; t_price := price; t_label := yLabel price |})
      (seq 0 yLabels).

Definition hoverRects : list rect :=
  mapi (fun d i =>
          {| r_x := (scaleX i - chartW / len / of_Z 2)%num;
             r_y := PAD.top;
             r_width := (chartW / len)%num;
             r_height := chartH;
             onMouseEnter :=
               {| h_date := date d; h_price := price d;
                  h_x := scaleX i;
                  h_y := scaleY (Fin (price d)) |} |})
       chartData.

(** What [renderChart] draws from the series; the area path and the
    date labels, which print numbers and dates through the host's
    default conversions, are not part of the frame. *)
Record frame : Type :=
  { f_linePath : string; f_lineColor : string;
    f_yTicks : list ytick; f_hoverRects : list rect }.

Definition renderChart : option frame :=
  if Nat.eqb (List.length chartData) 0 then None
  else Some {| f_linePath := linePath; f_lineColor := lineColor;
               f_yTicks := yTicks; f_hoverRects := hoverRects |}.

End RenderChart.

(** A count as a fraction. *)
Definition nq (n : nat) : Qc := Q2Qc (inject_Z (Z.of_nat n)).

(** The [i]-th of the five grid lines sits at [i/4] of the range. *)
Definition quarter (i : nat) : Qc := Q2Qc (Z.of_nat i # 4).

(** All samples of the series have the same price. *)
Definition flat_series (chartData : list point) : Prop :=
  forall d d', In d chartData -> In d' chartData -> price d = price d'.

(** The pointer at abscissa [px] is over the rectangle. *)
Definition over (r : rect) (px : num) : bool :=
  ((r_x r <=? px) && (px <=? r_x r + r_width r))%num.

(** [scaleX] on any number; [scaleX chartData i] is its value at the
    index [i]. *)
Definition scaleX_at (chartData : list point) (i : num) : num :=
  (PAD.left + (i / (len chartData - of_Z 1)) * chartW)%num.

(** [days === 7 ? 7 : days === 30 ? 6 : 5] *)
Definition xLabelCount (days : Z) : nat :=
  if Z.eqb days 7 then 7%nat else if Z.eqb days 30 then 6%nat else 5%nat.

(** The indices of the samples whose dates label the time axis. *)
Definition xLabelIndices (chartData : list point) (days : Z) : list num :=
  map (fun i =>
         Math_round (of_nat i * (len chartData - of_Z 1)
                     / (of_nat (xLabelCount days) - of_Z 1))%num)
      (seq 0 (xLabelCount days)).

(** One label of the time axis: where it is drawn and the date it
    prints, none when [chartData[idx]] is missing (the label is then the
    empty string). *)
Record xtick : Type := { x_pos : num; x_date : option Z }.

Definition xTicks (chartData : list point) (days : Z) : list xtick :=
  map (fun idx =>
         {| x_pos := scaleX_at chartData idx;
            x_date := match index idx with
                      | Some k => option_map date (nth_error chartData k)
                      | None => None
                      end |})
      (xLabelIndices chartData days).

(** The index [Math.round(i * (n - 1) / (c - 1))] of the [i]-th of [c]
    labels over [n] samples, by integer division. *)
Definition label_index (n c i : nat) : nat :=
  (2 * i * (n - 1) + (c - 1)) / (2 * (c - 1)).

(** [chartData[0]?.price] and [chartData[chartData.length - 1]?.price] *)
Definition firstPrice (chartData : list point) : value :=
  match chartData with
  | [] => Undefined
  | d :: _ => Num (Fin (price d))
  end.

Definition lastPrice (chartData : list point) : value :=
  match chartData with
  | [] => Undefined
  | d0 :: _ => Num (Fin (price (last chartData d0)))
  end.

(** The change over the period in percent, printed with two decimals;
    [null] when the first or the last price is missing or zero. *)
Definition periodChange (chartData : list point) : option string :=
  if negb (falsy (firstPrice chartData)) && negb (falsy (lastPrice chartData))
  then Some (toFixed ((to_num (lastPrice chartData)
                       - to_num (firstPrice chartData))
                      / to_num (firstPrice chartData) * of_Z 100)%num 2)
  else None.

(** [periodChange > 0]: the string is converted to a number, [null] to
    zero. *)
Definition isUp (chartData : list point) : bool :=
  gtb (match periodChange chartData with
       | Some s => StringToNumber s
       | None => Fin 0%Qc
       end) (of_Z 0).

(** The badge under the price ([periodChange && ...]): none, or its
    direction, up ([true]: class up, rising triangle) or down. *)
Definition periodBadge (chartData : list point) : option bool :=
  match periodChange chartData with
  | Some s => if String.eqb s "" then None else Some (isUp chartData)
  | None => None
  end.

(** *** The component state *)

(** A call of [fetchChartData] whose [fetch] has not settled yet, with
    the [coin.id] and [days] its URL was built from. *)
Record request : Type := { req_id : string; req_days : Z }.

(** How a call settles: [data.prices] is an array of pairs, or the
    [catch] branch runs (the fetch rejected, the body was not JSON, or it
    had no [prices]). *)
Inductive outcome : Type :=
| Prices (l : list (Z * Qc))
| Thrown.

Record state : Type :=
  { coin : Coin.coin;
    chartData : list point;
    loadingChart : bool;
    days : Z;
    hovered : option hover;
    inflight : list request }.

Definition set_chartData (v : list point) (s : state) : state :=
  {| coin := coin s; chartData := v; loadingChart := loadingChart s;
     days := days s; hovered := hovered s; inflight := inflight s |}.
Definition set_loadingChart (v : bool) (s : state) : state :=
  {| coin := coin s; chartData := chartData s; loadingChart := v;
     days := days s; hovered := hovered s; inflight := inflight s |}.
Definition set_days (v : Z) (s : state) : state :=
  {| coin := coin s; chartData := chartData s; loadingChart := loadingChart s;
     days := v; hovered := hovered s; inflight := inflight s |}.
Definition set_hovered (v : option hover) (s : state) : state :=
  {| coin := coin s; chartData := chartData s; loadingChart := loadingChart s;
     days := days s; hovered := v; inflight := inflight s |}.
Definition set_coin (v : Coin.coin) (s : state) : state :=
  {| coin := v; chartData := chartData s; loadingChart := loadingChart s;
     days := days s; hovered := hovered s; inflight := inflight s |}.
Definition set_inflight (v : list request) (s : state) : state :=
  {| coin := coin s; chartData := chartData s; loadingChart := loadingChart s;
     days := days s; hovered := hovered s; inflight := v |}.

(** [data.prices.map(([timestamp, price]) => ({ date, price }))] *)
Definition points (l : list (Z * Qc)) : list point :=
  map (fun '(timestamp, price) => {| date := timestamp; price := price |}) l.

(** [fetchChartData()] up to its first [await]: the loading flag is
    raised and a request for the rendered [coin.id] and [days] leaves. *)
Definition fetchChartData (s : state) : state :=
  set_inflight
    (inflight s ++ [{| req_id := Coin.id (coin s); req_days := days s |}])
    (set_loadingChart true s).

(** The rest of [fetchChartData()] once its fetch has settled. *)
Definition settle (o : outcome) (s : state) : state :=
  match o with
  | Prices l => set_loadingChart false (set_chartData (points l) s)
  | Thrown => set_loadingChart false s
  end.

(** [l] without its [i]-th element. *)
Fixpoint drop_nth {A : Type} (i : nat) (l : list A) : list A :=
  match l, i with
  | [], _ => []
  | _ :: l', O => l'
  | a :: l', S i' => a :: drop_nth i' l'
  end.

(** The first render of the component and the effect that follows it. *)
Definition mount (c : Coin.coin) : state :=
  fetchChartData
    {| coin := c; chartData := []; loadingChart := true; days := 7;
       hovered := None; inflight := [] |}.

(** The chart as the component shows it: the loading line replaces it
    while [loadingChart] holds. *)
Definition chart (s : state) : option frame :=
  if loadingChart s then None else renderChart (chartData s).

Inductive event : Type :=
| ClickPeriod (d : Z)            (* a period button: [setDays(d)] *)
| CoinProp (c : Coin.coin)       (* the parent renders another [coin] *)
| Settle (i : nat) (o : outcome) (* the [i]-th fetch in flight settles *)
| MouseEnter (i : nat)           (* the pointer enters the [i]-th rect *)
| MouseLeave.                    (* the pointer leaves the [<svg>] *)

(** One event, followed by the effect on [[coin.id, days]] when one of
    the two changed. *)
Definition step (s : state) (e : event) : state :=
  match e with
  | ClickPeriod d =>
      if Z.eqb d (days s) then s else fetchChartData (set_days d s)
  | CoinProp c =>
      if String.eqb (Coin.id c) (Coin.id (coin s)) then set_coin c s
      else fetchChartData (set_coin c s)
  | Settle i o =>
      match nth_error (inflight s) i with
      | Some _ => settle o (set_inflight (drop_nth i (inflight s)) s)
      | None => s
      end
  | MouseEnter i =>
      match chart s with
      | Some f =>
          match nth_error (f_hoverRects f) i with
          | Some r => set_hovered (Some (onMouseEnter r)) s
          | None => s
          end
      | None => s
      end
  | MouseLeave =>
      match chart s with
      | Some _ => set_hovered None s
      | None => s
      end
  end.

Definition run (s : state) (es : list event) : state := fold_left step es s.

(** An event after which the effect on [[coin.id, days]] runs again. *)
Definition supersedes (s : state) (e : event) : Prop :=
  match e with
  | ClickPeriod d => d <> days s
  | CoinProp c => Coin.id c <> Coin.id (coin s)
  | _ => False
  end.

(** The events that replace, or lead to replacing, the series: a period
    button, another coin, a fetch that settles. *)
Definition replaces_series (e : event) : Prop :=
  match e with
  | ClickPeriod _ | CoinProp _ | Settle _ _ => True
  | MouseEnter _ | MouseLeave => False
  end.

End CryptoModal.

(* ------------------------------------------------------------------ *)
(** ** App.jsx *)

Module App.

Import Number Text Value Coin.
Local Open Scope string_scope.

(** The predicate of the search filter, [term] already lowered. *)
Definition matches (term : string) (coin : coin) : bool :=
  includes (toLowerCase (name coin)) term ||
  includes (toLowerCase (symbol coin)) term.

(** The result the search effect stores in [filtered]. *)
Definition searchFilter (search : string) (cryptos : list coin) : list coin :=
  let term := toLowerCase search in
  filter (matches term) cryptos.

(** How the request of [fetchCryptos] settles: an OK response whose body
    parses, or the [catch] branch (the fetch rejected, the status was not
    OK, or the body was not JSON). *)
Inductive outcome : Type :=
| Loaded (data : list coin)
| Thrown.

Record state : Type :=
  { cryptos : list coin;
    filtered : list coin;
    search : string;
    selected : option coin;
    loading : bool;
    error : option string;
    modal : option CryptoModal.state;  (* the mounted CryptoModal, if any *)
    pending : nat }.                   (* calls of fetchCryptos in flight *)

Definition initial : state :=
  {| cryptos := []; filtered := []; search := ""; selected := None;
     loading := true; error := None; modal := None; pending := 0 |}.

Definition set_cryptos (v : list coin) (s : state) : state :=
  {| cryptos := v; filtered := filtered s; search := search s;
     selected := selected s; loading := loading s; error := error s;
     modal := modal s; pending := pending s |}.
Definition set_filtered (v : list coin) (s : state) : state :=
  {| cryptos := cryptos s; filtered := v; search := search s;
     selected := selected s; loading := loading s; error := error s;
     modal := modal s; pending := pending s |}.
Definition set_search (v : string) (s : state) : state :=
  {| cryptos := cryptos s; filtered := filtered s; search := v;
     selected := selected s; loading := loading s; error := error s;
     modal := modal s; pending := pending s |}.
Definition set_selected (v : option coin) (m : option CryptoModal.state)
  (s : state) : state :=
  {| cryptos := cryptos s; filtered := filtered s; search := search s;
     selected := v; loading := loading s; error := error s;
     modal := m; pending := pending s |}.
Definition set_loading (v : bool) (s : state) : state :=
  {| cryptos := cryptos s; filtered := filtered s; search := search s;
     selected := selected s; loading := v; error := error s;
     modal := modal s; pending := pending s |}.
Definition set_error (v : option string) (s : state) : state :=
  {| cryptos := cryptos s; filtered := filtered s; search := search s;
     selected := selected s; loading := loading s; error := v;
     modal := modal s; pending := pending s |}.
Definition set_pending (v : nat) (s : state) : state :=
  {| cryptos := cryptos s; filtered := filtered s; search := search s;
     selected := selected s; loading := loading s; error := error s;
     modal := modal s; pending := v |}.

Definition failure_message : string :=
  "Failed to load data. Please try again.".

(** The effect on [[search, cryptos]]. *)
Definition searchEffect (s : state) : state :=
  set_filtered (searchFilter (search s) (cryptos s)) s.

(** [fetchCryptos()] up to its [await]. *)
Definition fetchCryptos (s : state) : state :=
  set_pending (S (pending s)) (set_error None s).

(** The rest of [fetchCryptos()] once its request has settled; a new
    [cryptos] array makes the search effect run. *)
Definition settle (o : outcome) (s : state) : state :=
  match o with
  | Loaded data =>
      searchEffect
        (set_loading false (set_filtered data (set_cryptos data s)))
  | Thrown => set_loading false (set_error (Some failure_message) s)
  end.

Inductive event : Type :=
| Fetch                          (* mount, the 60 s interval, TRY AGAIN *)
| Settle (o : outcome)           (* a request of fetchCryptos settles *)
| Type_ (text : string)          (* the search bar: [setSearch] *)
| Select (c : coin)              (* a card: [setSelected(coin)] *)
| Close                          (* the modal: [setSelected(null)] *)
| Modal (e : CryptoModal.event). (* an event inside the modal *)

Definition step (s : state) (e : event) : state :=
  match e with
  | Fetch => fetchCryptos s
  | Settle o =>
      match pending s with
      | O => s
      | S n => settle o (set_pending n s)
      end
  | Type_ text => searchEffect (set_search text s)
  | Select c =>
      set_selected (Some c)
        (Some match modal s with
              | Some m => CryptoModal.step m (CryptoModal.CoinProp c)
              | None => CryptoModal.mount c
              end) s
  | Close => set_selected None None s
  | Modal e =>
      set_selected (selected s)
        (option_map (fun m => CryptoModal.step m e) (modal s)) s
  end.

Definition run (s : state) (es : list event) : state := fold_left step es s.

(** The state right after the first render and its two effects. *)
Definition mounted : state := fetchCryptos (searchEffect initial).

(** [error && ...] on the message. *)
Definition shown (error : option string) : bool :=
  match error with
  | Some m => negb (String.eqb m "")
  | None => false
  end.

(** What a render puts on the screen: the header count, the loading
    line, the error panel, the list handed to CryptoList, the modal. *)
Record view : Type :=
  { v_total : nat;
    v_loading : bool;
    v_error : option string;
    v_list : option (list coin);
    v_modal : option coin }.

Definition render (s : state) : view :=
  {| v_total := List.length (filtered s);
     v_loading := loading s;
     v_error := if shown (error s) then error s else None;
     v_list := if negb (loading s) && negb (shown (error s))
               then Some (filtered s) else None;
     v_modal := selected s |}.

(** The states the App renders, in order, while it handles one event.
    The setters of one event are committed in one render; when [search]
    or [cryptos] changed in it, the effect on [[search, cryptos]] runs
    after that render and its [setFiltered] gives a second one, which
    is the state [step] ends in. *)
Definition renders (s : state) (e : event) : list state :=
  match e with
  | Settle (Loaded data) =>
      match pending s with
      | O => [s]
      | S n =>
          let r := set_loading false
                     (set_filtered data (set_cryptos data (set_pending n s)))
          in [r; searchEffect r]
      end
  | Type_ text => [set_search text s; searchEffect (set_search text s)]
  | _ => [step s e]
  end.

(** A request of [fetchCryptos] settles. *)
Definition is_settle (e : event) : bool :=
  match e with Settle _ => true | _ => false end.

(** Every event but the click on a card. *)
Definition not_select (e : event) : Prop :=
  match e with
  | Select _ => False
  | _ => True
  end.

(** Every event but a new [coin] prop reaching the modal on its own: the
    modal gets its [coin] from [selected], so the prop changes through a
    click on a card only. *)
Definition prop_by_click (e : event) : Prop :=
  match e with
  | Modal (CryptoModal.CoinProp _) => False
  | _ => True
  end.

(** The events of the list side: refreshes and the search bar. *)
Definition list_side (e : event) : Prop :=
  match e with
  | Fetch | Settle _ | Type_ _ => True
  | Select _ | Close | Modal _ => False
  end.

End App.

(* ------------------------------------------------------------------ *)
(** ** components/CryptoList.jsx *)

Module CryptoList.

Import Coin.

(** One [<CryptoCard>] as the list creates it: its key, the coin and the
    rank it passes down, and the coin its [onClick] hands to
    [onSelect]. *)
Record card : Type :=
  { key : string; c_coin : coin; c_rank : nat; onClick : coin }.

Inductive view : Type :=
| EmptyState                 (* NO ASSETS FOUND *)
| Cards (cards : list card).

Definition CryptoList (cryptos : list coin) : view :=
  if Nat.eqb (List.length cryptos) 0 then EmptyState
  else Cards (CryptoModal.mapi
                (fun coin index =>
                   {| key := id coin; c_coin := coin;
                      c_rank := index + 1; onClick := coin |})
                cryptos).

End CryptoList.

(* ------------------------------------------------------------------ *)
(** ** components/Header.jsx *)

Module Header.

Import Text.
Local Open Scope string_scope.

(** The ASSETS figure: [total < 10 ? `0${total}` : total]. *)
Definition totalText (total : nat) : string :=
  if (total <? 10)%nat then "0" ++ of_count total else of_count total.

End Header.

(* ------------------------------------------------------------------ *)
(** ** components/SearchBar.jsx *)

Module SearchBar.

Local Open Scope string_scope.

(** What the bar shows for a [value]: the text of the input, and
    whether the clear button and the FILTERING hint are there
    ([value && ...]). *)
Record view : Type :=
  { input : string; clearButton : bool; hint : bool }.

Definition SearchBar (value : string) : view :=
  {| input := value;
     clearButton := negb (String.eqb value "");
     hint := negb (String.eqb value "") |}.

(** What the bar passes to [onChange]. *)
Inductive action : Type :=
| Input (text : string)   (* a keystroke: [e.target.value] *)
| Clear.                  (* the clear button *)

Definition onChange (a : action) : string :=
  match a with
  | Input text => text
  | Clear => ""
  end.

End SearchBar.

(* ------------------------------------------------------------------ *)
(** ** Vocabulary of the statements and concrete inputs *)

(** [t] occurs in [s]. *)
Definition contains (s t : string) : Prop :=
  exists a b : string, s = (a ++ t ++ b)%string.

(** [l1] is [l2] with some elements left out, the others in place. *)
Inductive subseq {A : Type} : list A -> list A -> Prop :=
| subseq_nil : subseq [] []
| subseq_skip a l1 l2 : subseq l1 l2 -> subseq l1 (a :: l2)
| subseq_keep a l1 l2 : subseq l1 l2 -> subseq (a :: l1) (a :: l2).

Module Samples.

Import Value Coin.
Local Open Scope string_scope.

Definition q (a : Z) (b : positive) : Qc := Q2Qc (a # b).

Definition bitcoin : coin :=
  {| id := "bitcoin"; name := "Bitcoin"; symbol := "btc";
     current_price := Value.of_Q (60123 # 1);
     high_24h := Value.of_Q (61000 # 1); low_24h := Value.of_Q (59000 # 1) |}.

Definition ethereum : coin :=
  {| id := "ethereum"; name := "Ethereum"; symbol := "eth";
     current_price := Value.of_Q (3000 # 1);
     high_24h := Null; low_24h := Undefined |}.

(** Two upstream answers for bitcoin: the 7-day and the 30-day series. *)
Definition week : list (Z * Qc) := [(1, q 100 1); (2, q 200 1)].
Definition month : list (Z * Qc) := [(11, q 50 1); (12, q 80 1); (13, q 70 1)].

Definition sample (t : Z) (a : Z) (b : positive) : CryptoModal.point :=
  {| CryptoModal.date := t; CryptoModal.price := q a b |}.

(** A series of two samples, a flat one, and a single sample. *)
Definition two : list CryptoModal.point := [sample 1 100 1; sample 2 200 1].
Definition flat : list CryptoModal.point := [sample 1 5 1; sample 2 5 1].
Definition single : list CryptoModal.point := [sample 1 5 1].

End Samples.

(* ------------------------------------------------------------------ *)
(** ** The chart data of the modal: which fetch writes the series *)

Module CryptoModalFacts.

Import Number Value Coin CryptoModal.

Lemma drop_nth_app {A : Type} (l : list A) (b : A) (i : nat) :
  (i < List.length l)%nat -> drop_nth i (l ++ [b]) = drop_nth i l ++ [b].
Proof.
  revert i; induction l as [|a l IH]; intros i Hi; simpl in Hi; [lia|].
  destruct i as [|i]; simpl; [reflexivity|].
  rewrite IH by lia; reflexivity.
Qed.

Lemma drop_nth_length {A : Type} (l : list A) (i : nat) :
  (i < List.length l)%nat -> S (List.length (drop_nth i l)) = List.length l.
Proof.
  revert i; induction l as [|a l IH]; intros i Hi; simpl in Hi; [lia|].
  destruct i as [|i]; simpl; [reflexivity|].
  rewrite IH by lia; reflexivity.
Qed.

Lemma drop_nth_last {A : Type} (l : list A) (b : A) :
  drop_nth (List.length l) (l ++ [b]) = l.
Proof. induction l as [|a l IH]; simpl; [reflexivity | now rewrite IH]. Qed.

Lemma nth_error_last {A : Type} (l : list A) (b : A) :
  nth_error (l ++ [b]) (List.length l) = Some b.
Proof. induction l as [|a l IH]; simpl; [reflexivity | exact IH]. Qed.

(** The request the superseding event sends is for the new key and
    queues behind those in flight. *)
Lemma supersede_inflight (s : state) (e : event) :
  supersedes s e ->
  inflight (step s e) =
  inflight s ++ [{| req_id := id (coin (step s e));
                    req_days := days (step s e) |}].
Proof.
  destruct e as [d|c| | |]; simpl; try contradiction; intros Hne.
  - destruct (Z.eqb_spec d (days s)) as [->|_]; [congruence|reflexivity].
  - destruct (String.eqb_spec (id c) (id (coin s))) as [E|_];
      [congruence|reflexivity].
Qed.

Lemma step_settle_prices (s : state) (i : nat) (r : request)
  (l : list (Z * Qc)) :
  nth_error (inflight s) i = Some r ->
  step s (Settle i (Prices l)) =
  set_loadingChart false
    (set_chartData (points l) (set_inflight (drop_nth i (inflight s)) s)).
Proof. intros Hr; simpl; rewrite Hr; reflexivity. Qed.

(** C1, as the code has it: [fetchChartData] stores whatever its own
    fetch returned, whenever it returns.  With a fetch for key A in
    flight and a fetch for another key B started after it (period or
    instrument change), the stored series after both have completed is
    the one of the fetch that completed last: B's when A completed
    first, A's when A completed after B. *)
Theorem last_settled_fetch_wins (s : state) (e : event) (iA : nat)
  (rA : request) (sA sB : list (Z * Qc)) :
  nth_error (inflight s) iA = Some rA ->
  supersedes s e ->
  let s1 := step s e in
  let iB := List.length (inflight s) in
  nth_error (inflight s1) iA = Some rA /\
  nth_error (inflight s1) iB =
    Some {| req_id := id (coin s1); req_days := days s1 |} /\
  chartData (run s1 [Settle iA (Prices sA); Settle (iB - 1) (Prices sB)])
    = points sB /\
  chartData (run s1 [Settle iB (Prices sB); Settle iA (Prices sA)])
    = points sA.
Proof.
  intros HA He s1 iB.
  assert (Hlt : (iA < List.length (inflight s))%nat)
    by (apply nth_error_Some; congruence).
  pose proof (supersede_inflight s e He) as Hq; fold s1 in Hq.
  set (rB := {| req_id := id (coin s1); req_days := days s1 |}) in *.
  assert (HA1 : nth_error (inflight s1) iA = Some rA)
    by (rewrite Hq, nth_error_app1 by exact Hlt; exact HA).
  assert (HB1 : nth_error (inflight s1) iB = Some rB)
    by (rewrite Hq; apply nth_error_last).
  repeat split; try assumption.
  - unfold run; cbn [fold_left].
    rewrite (step_settle_prices s1 iA rA sA HA1).
    erewrite step_settle_prices; [reflexivity|].
    cbn [inflight set_loadingChart set_chartData set_inflight].
    rewrite Hq, drop_nth_app by exact Hlt.
    pose proof (drop_nth_length (inflight s) iA Hlt) as Hl.
    replace (iB - 1)%nat with (List.length (drop_nth iA (inflight s)))
      by (unfold iB; lia).
    apply nth_error_last.
  - unfold run; cbn [fold_left].
    rewrite (step_settle_prices s1 iB rB sB HB1).
    erewrite step_settle_prices; [reflexivity|].
    cbn [inflight set_loadingChart set_chartData set_inflight].
    rewrite Hq; unfold iB; rewrite drop_nth_last; exact HA.
Qed.

(** The theorem at the sample trace: bitcoin is opened, its 7-day fetch
    is in flight, and 30D is clicked. *)
Lemma last_settled_fetch_wins_witness :
  chartData (run (step (mount Samples.bitcoin) (ClickPeriod 30))
                 [Settle 1 (Prices Samples.month);
                  Settle 0 (Prices Samples.week)])
  = points Samples.week.
Proof.
  refine (proj2 (proj2 (proj2
    (last_settled_fetch_wins (mount Samples.bitcoin) (ClickPeriod 30) 0
       {| req_id := "bitcoin"; req_days := 7 |}
       Samples.week Samples.month _ _)))).
  - reflexivity.
  - simpl; lia.
Defined.

(** C1 fails as stated: the 7-day fetch of bitcoin settles after the
    30-day fetch that superseded it, and the stored series is then the
    7-day one although the selected period is 30. *)
Lemma stale_series_overwrites :
  let s := run (mount Samples.bitcoin)
               [ClickPeriod 30;
                Settle 1 (Prices Samples.month);
                Settle 0 (Prices Samples.week)] in
  days s = 30 /\ inflight s = [] /\ loadingChart s = false /\
  chartData s = points Samples.week /\
  chartData s <> points Samples.month.
Proof.
  cbv zeta; repeat split.
  intros Habs.
  apply (f_equal (map date)) in Habs; vm_compute in Habs; discriminate.
Qed.

(** C4, as the code has it: the only handler that clears [hovered] is
    [onMouseLeave] of the [<svg>]; while the chart is shown, the pointer
    leaving it returns the tracker to Idle from any hover state.  A
    period button, another coin and a settling fetch leave [hovered] as
    it was. *)
Theorem hover_cleared_only_by_leave (s : state) (e : event) :
  (e = MouseLeave -> chart s <> None -> hovered (step s e) = None) /\
  (replaces_series e -> hovered (step s e) = hovered s) /\
  (hovered s <> None -> hovered (step s e) = None -> e = MouseLeave).
Proof.
  assert (Hkeep : replaces_series e -> hovered (step s e) = hovered s).
  { destruct e as [d|c|i o| |]; simpl; try contradiction; intros _.
    - destruct (Z.eqb d (days s)); reflexivity.
    - destruct (String.eqb (id c) (id (coin s))); reflexivity.
    - destruct (nth_error (inflight s) i); [destruct o|]; reflexivity. }
  split; [|split; [exact Hkeep|]].
  - intros -> Hc; simpl.
    destruct (chart s); [reflexivity | congruence].
  - intros Hs Hn; destruct e as [d|c|i o|i|]; try reflexivity;
      try (rewrite Hkeep in Hn by exact I; congruence).
    simpl in Hn; destruct (chart s) as [f|]; [|congruence].
    destruct (nth_error (f_hoverRects f) i); [discriminate | congruence].
Qed.

(** The theorem on the sample trace: the second sample of the 7-day
    series is hovered; leaving clears it, clicking 30D does not. *)
Lemma hover_cleared_only_by_leave_witness :
  let s := run (mount Samples.bitcoin)
               [Settle 0 (Prices Samples.week); MouseEnter 1] in
  hovered (step s MouseLeave) = None /\
  hovered (step s (ClickPeriod 30)) = hovered s.
Proof.
  intros s; split.
  - apply (proj1 (hover_cleared_only_by_leave s MouseLeave));
      [reflexivity | discriminate].
  - apply (proj1 (proj2 (hover_cleared_only_by_leave s (ClickPeriod 30)))).
    exact I.
Defined.

(** C4 fails as stated: with the second sample of the 7-day series
    hovered, 30D is chosen (from the keyboard, the pointer staying where
    it is) and the 30-day series arrives; the hover state still holds
    the sample of the old series, whose date the new series does not
    contain. *)
Lemma hover_survives_period_change :
  let s := run (mount Samples.bitcoin)
               [Settle 0 (Prices Samples.week); MouseEnter 1;
                ClickPeriod 30; Settle 0 (Prices Samples.month)] in
  days s = 30 /\ chartData s = points Samples.month /\
  hovered s <> None /\
  option_map h_date (hovered s) = Some 2 /\
  ~ In 2 (map date (chartData s)).
Proof.
  cbv zeta; repeat split.
  - discriminate.
  - vm_compute; intuition discriminate.
Qed.

End CryptoModalFacts.

(* ------------------------------------------------------------------ *)
(** ** App: a failed refresh, and the search filter *)

Module AppFacts.

Import Text Value Coin App.
Local Open Scope string_scope.

Lemma prefix_spec (t s : string) :
  String.prefix t s = true <-> exists b, s = t ++ b.
Proof.
  revert s; induction t as [|c t IH]; intros s.
  - split; [intros _; exists s; reflexivity | intros _; destruct s; reflexivity].
  - destruct s as [|c' s]; simpl;
      [split; [discriminate | intros [b Hb]; discriminate]|].
    destruct (ascii_dec c c') as [->|Hne].
    + rewrite IH; split; intros [b Hb]; exists b; congruence.
    + split; [discriminate | intros [b Hb]; congruence].
Qed.

Lemma includes_prefix (s t : string) :
  String.prefix t s = true -> includes s t = true.
Proof. destruct s; cbn [includes]; intros ->; reflexivity. Qed.

Lemma includes_spec (s t : string) : includes s t = true <-> contains s t.
Proof.
  unfold contains; split.
  - induction s as [|c s IH]; cbn [includes]; rewrite orb_true_iff.
    + intros [Hp|Hf]; [|discriminate].
      apply prefix_spec in Hp; destruct Hp as [b Hb]; now exists "", b.
    + intros [Hp|Hi].
      * apply prefix_spec in Hp; destruct Hp as [b Hb]; now exists "", b.
      * destruct (IH Hi) as (a & b & ->); now exists (String c a), b.
  - intros (a & b & ->); induction a as [|c a IH].
    + apply includes_prefix, prefix_spec; now exists b.
    + cbn [append includes]; rewrite IH; apply orb_true_r.
Qed.

Lemma includes_empty (s : string) : includes s "" = true.
Proof. destruct s; reflexivity. Qed.

Lemma filter_subseq {A : Type} (f : A -> bool) (l : list A) :
  subseq (filter f l) l.
Proof.
  induction l as [|a l IH]; simpl; [constructor|].
  destruct (f a); now constructor.
Qed.

Lemma filter_idem {A : Type} (f : A -> bool) (l : list A) :
  filter f (filter f l) = filter f l.
Proof.
  induction l as [|a l IH]; simpl; [reflexivity|].
  destruct (f a) eqn:Ha; simpl; [rewrite Ha, IH|]; auto.
Qed.

Lemma filter_all {A : Type} (f : A -> bool) (l : list A) :
  (forall a, f a = true) -> filter f l = l.
Proof.
  intros Hf; induction l as [|a l IH]; simpl; [reflexivity|].
  now rewrite Hf, IH.
Qed.

(** C9: what the search effect stores depends on the list and the term
    only, and is the list filtered in place: an instrument is kept
    exactly when its lowered name or its lowered symbol contains the
    lowered term; the kept ones stay in their order (the result is a
    subsequence of the list, built element by element); filtering the
    result again with the same term changes nothing; the empty term keeps
    the whole list. *)
Theorem searchFilter_spec (s : state) (text : string) (l : list coin) :
  filtered (searchEffect s) = searchFilter (search s) (cryptos s) /\
  filtered (step s (Type_ text)) = searchFilter text (cryptos s) /\
  (forall c, In c (searchFilter text l) <->
             In c l /\
             (contains (toLowerCase (name c)) (toLowerCase text) \/
              contains (toLowerCase (symbol c)) (toLowerCase text))) /\
  subseq (searchFilter text l) l /\
  (forall l1 l2, searchFilter text (l1 ++ l2) =
                 (searchFilter text l1 ++ searchFilter text l2)%list) /\
  searchFilter text (searchFilter text l) = searchFilter text l /\
  searchFilter "" l = l.
Proof.
  unfold searchFilter.
  split; [reflexivity|]. split; [reflexivity|].
  split; [|split; [|split; [|split]]].
  - intros c; rewrite filter_In; unfold matches.
    rewrite orb_true_iff, !includes_spec; reflexivity.
  - apply filter_subseq.
  - intros l1 l2; apply filter_app.
  - apply filter_idem.
  - apply filter_all; intros c; unfold matches; simpl.
    rewrite includes_empty; reflexivity.
Qed.

(** The scenario of the specification: the term bit keeps Bitcoin and
    drops Ethereum. *)
Example search_bit :
  searchFilter "bit" [Samples.bitcoin; Samples.ethereum] = [Samples.bitcoin].
Proof. reflexivity. Qed.

(** C2, as the code has it: a refresh that fails leaves [cryptos] and
    [filtered] as they were and sets the error to the fixed message; the
    render then shows the error panel and, because the list is gated by
    [!loading && !error], no list.  The stale list is on the screen again
    as soon as the next fetch starts and clears the error. *)
Theorem failed_refresh_keeps_list_hides_it (s : state) :
  pending s <> 0%nat ->
  let s' := step s (Settle Thrown) in
  cryptos s' = cryptos s /\
  filtered s' = filtered s /\
  error s' = Some "Failed to load data. Please try again." /\
  v_error (render s') = Some "Failed to load data. Please try again." /\
  v_list (render s') = None /\
  v_list (render (step s' Fetch)) = Some (filtered s).
Proof.
  intros Hp; simpl.
  destruct (pending s) as [|n]; [congruence|].
  repeat split.
Qed.

(** The theorem after one good load and a refresh that fails. *)
Lemma failed_refresh_keeps_list_hides_it_witness :
  let s := run mounted
               [Settle (Loaded [Samples.bitcoin; Samples.ethereum]); Fetch] in
  cryptos (step s (Settle Thrown)) = [Samples.bitcoin; Samples.ethereum] /\
  v_list (render (step s (Settle Thrown))) = None.
Proof.
  intros s.
  assert (Hp : pending s <> 0%nat) by (simpl; lia).
  pose proof (failed_refresh_keeps_list_hides_it s Hp) as H.
  split; [exact (proj1 H) | exact (proj1 (proj2 (proj2 (proj2 (proj2 H)))))].
Defined.

(** C2 fails as stated: two instruments are loaded and shown, the next
    refresh fails; the store still holds both, but the render hands no
    list to CryptoList. *)
Lemma failed_refresh_blanks_list :
  let s0 := run mounted
                [Settle (Loaded [Samples.bitcoin; Samples.ethereum])] in
  let s := run s0 [Fetch; Settle Thrown] in
  v_list (render s0) = Some [Samples.bitcoin; Samples.ethereum] /\
  cryptos s = [Samples.bitcoin; Samples.ethereum] /\
  error s = Some "Failed to load data. Please try again." /\
  v_list (render s) <> Some [Samples.bitcoin; Samples.ethereum].
Proof.
  cbv zeta; repeat split; discriminate.
Qed.

End AppFacts.

(* ------------------------------------------------------------------ *)
(** ** Arithmetic of finite numbers *)

Module NumberFacts.

Import Number.

Lemma Qc_ltb_spec (x y : Qc) : Qc_ltb x y = true <-> (x < y)%Qc.
Proof.
  unfold Qc_ltb; rewrite Qclt_alt.
  destruct (x ?= y)%Qc; split; congruence.
Qed.

Lemma Qc_ltb_false (x y : Qc) : Qc_ltb x y = false <-> (y <= x)%Qc.
Proof.
  split.
  - intros H; apply Qcnot_lt_le; intros Hlt.
    apply Qc_ltb_spec in Hlt; congruence.
  - intros Hle; destruct (Qc_ltb x y) eqn:E; [|reflexivity].
    apply Qc_ltb_spec in E; exfalso; exact (Qcle_not_lt _ _ Hle E).
Qed.

Lemma Qc_is0_spec (x : Qc) : Qc_is0 x = true <-> x = 0%Qc.
Proof.
  unfold Qc_is0, Qc_eq_bool.
  destruct (Qc_eq_dec x 0%Qc); split; congruence.
Qed.

Lemma Qc_is0_false (x : Qc) : Qc_is0 x = false <-> x <> 0%Qc.
Proof.
  unfold Qc_is0, Qc_eq_bool.
  destruct (Qc_eq_dec x 0%Qc); split; congruence.
Qed.

(** Equality of two finite numbers is decided on their fractions. *)
Lemma Fin_eq (x y : Qc) : (x == y)%Q -> Fin x = Fin y.
Proof. intros H; f_equal; apply Qc_is_canon; exact H. Qed.

Lemma Fin_neq (x y : Qc) : ~ (x == y)%Q -> Fin x <> Fin y.
Proof. intros H E; apply H; injection E as ->; reflexivity. Qed.

Lemma fold_min2_Fin (qs : list Qc) (a : Qc) :
  exists m, fold_left min2 (map Fin qs) (Fin a) = Fin m /\
            In m (a :: qs) /\ forall x, In x (a :: qs) -> (m <= x)%Qc.
Proof.
  revert a; induction qs as [|b qs IH]; intros a.
  - exists a; repeat split; [now left|].
    intros x [<-|[]]; apply Qcle_refl.
  - cbn [map fold_left min2 ltb].
    destruct (Qc_ltb b a) eqn:E.
    + apply Qc_ltb_spec in E.
      destruct (IH b) as (m & Hm & Hin & Hle); exists m; repeat split; auto.
      * right; exact Hin.
      * intros x [<-|Hx]; [|now apply Hle].
        apply Qcle_trans with b; [apply Hle; now left|].
        now apply Qclt_le_weak.
    + apply Qc_ltb_false in E.
      destruct (IH a) as (m & Hm & Hin & Hle); exists m; repeat split; auto.
      * destruct Hin as [<-|Hin]; [now left | right; now right].
      * intros x [<-|[<-|Hx]].
        -- apply Hle; now left.
        -- apply Qcle_trans with a; [apply Hle; now left | exact E].
        -- apply Hle; now right.
Qed.

Lemma fold_max2_Fin (qs : list Qc) (a : Qc) :
  exists m, fold_left max2 (map Fin qs) (Fin a) = Fin m /\
            In m (a :: qs) /\ forall x, In x (a :: qs) -> (x <= m)%Qc.
Proof.
  revert a; induction qs as [|b qs IH]; intros a.
  - exists a; repeat split; [now left|].
    intros x [<-|[]]; apply Qcle_refl.
  - cbn [map fold_left max2 ltb].
    destruct (Qc_ltb a b) eqn:E.
    + apply Qc_ltb_spec in E.
      destruct (IH b) as (m & Hm & Hin & Hle); exists m; repeat split; auto.
      * right; exact Hin.
      * intros x [<-|Hx]; [|now apply Hle].
        apply Qcle_trans with b; [|apply Hle; now left].
        now apply Qclt_le_weak.
    + apply Qc_ltb_false in E.
      destruct (IH a) as (m & Hm & Hin & Hle); exists m; repeat split; auto.
      * destruct Hin as [<-|Hin]; [now left | right; now right].
      * intros x [<-|[<-|Hx]].
        -- apply Hle; now left.
        -- apply Qcle_trans with a; [exact E | apply Hle; now left].
        -- apply Hle; now right.
Qed.

(** [Math.min] and [Math.max] of a non-empty list of finite numbers are
    elements of the list that bound it. *)
Lemma Math_min_Fin (q : Qc) (qs : list Qc) :
  exists m, Math_min (map Fin (q :: qs)) = Fin m /\
            In m (q :: qs) /\ forall x, In x (q :: qs) -> (m <= x)%Qc.
Proof. exact (fold_min2_Fin qs q). Qed.

Lemma Math_max_Fin (q : Qc) (qs : list Qc) :
  exists m, Math_max (map Fin (q :: qs)) = Fin m /\
            In m (q :: qs) /\ forall x, In x (q :: qs) -> (x <= m)%Qc.
Proof. exact (fold_max2_Fin qs q). Qed.

End NumberFacts.

(** Both sides are evaluated and compared as fractions. *)
Ltac num_eq :=
  vm_compute;
  first [ reflexivity
        | apply NumberFacts.Fin_eq; vm_compute; reflexivity ].

Ltac num_neq :=
  vm_compute;
  first [ discriminate
        | apply NumberFacts.Fin_neq; vm_compute; discriminate ].

(** Orders and operations on canonical fractions, stated on plain ones. *)
Ltac Qc_to_Q :=
  unfold Qclt, Qcle, Qcminus, Qcdiv, Qcplus, Qcmult, Qcopp, Qcinv, Q2Qc in *;
  cbn [this] in *; rewrite ?Qred_correct in *.

(* ------------------------------------------------------------------ *)
(** ** The geometry of renderChart *)

Module ChartFacts.

Import Number Text CryptoModal NumberFacts.
Local Open Scope Qc_scope.

(** The viewport constants are finite. *)
Lemma viewport_finite :
  exists t h l w : Qc,
    PAD.top = Fin t /\ chartH = Fin h /\ PAD.left = Fin l /\ chartW = Fin w.
Proof. do 4 eexists; repeat split; reflexivity. Qed.

(** The extremes of a non-empty series are prices of the series and
    bound every price. *)
Lemma extremes (cd : list point) :
  cd <> [] ->
  exists m M : Qc,
    minP cd = Fin m /\ maxP cd = Fin M /\
    In m (map price cd) /\ In M (map price cd) /\
    forall x, In x (map price cd) -> m <= x /\ x <= M.
Proof.
  destruct cd as [|d cd]; [congruence|]; intros _.
  unfold minP, maxP, prices; rewrite <- (map_map price Fin).
  cbn [map].
  destruct (Math_min_Fin (price d) (map price cd)) as (m & Hm & Im & Lm).
  destruct (Math_max_Fin (price d) (map price cd)) as (M & HM & IM & LM).
  exists m, M; repeat split; auto.
Qed.

Lemma flat_extremes (cd : list point) (m M : Qc) :
  In m (map price cd) -> In M (map price cd) ->
  (forall x, In x (map price cd) -> m <= x /\ x <= M) ->
  (flat_series cd <-> m = M).
Proof.
  intros Im IM Hb; split.
  - intros Hflat.
    apply in_map_iff in Im; destruct Im as (d & <- & Hd).
    apply in_map_iff in IM; destruct IM as (d' & <- & Hd').
    now apply Hflat.
  - intros <- d d' Hd Hd'.
    destruct (Hb (price d) (in_map price _ _ Hd)).
    destruct (Hb (price d') (in_map price _ _ Hd')).
    transitivity m; [|symmetry]; now apply Qcle_antisym.
Qed.

(** [maxP - minP || 1]: the difference, or 1 when it is zero. *)
Lemma rangeP_Fin (cd : list point) (m M : Qc) :
  minP cd = Fin m -> maxP cd = Fin M ->
  (m = M -> rangeP cd = Fin 1) /\ (m <> M -> rangeP cd = Fin (M - m)).
Proof.
  intros Hm HM; unfold rangeP; rewrite Hm, HM.
  cbn [sub add neg or_else truthy]; fold (Qcminus M m).
  split; intros H.
  - subst M. replace (m - m) with 0 by ring. reflexivity.
  - assert (Hnz : M - m <> 0).
    { intros E; apply H; symmetry.
      rewrite <- (Qcplus_0_l m), <- E; ring. }
    apply Qc_is0_false in Hnz; unfold or_else, truthy; rewrite Hnz.
    reflexivity.
Qed.

Lemma scaleY_Fin (cd : list point) (m r t h p : Qc) :
  minP cd = Fin m -> rangeP cd = Fin r -> r <> 0 ->
  PAD.top = Fin t -> chartH = Fin h ->
  scaleY cd (Fin p) = Fin (t + h - ((p - m) / r) * h).
Proof.
  intros Hm Hr Hnz Ht Hh; unfold scaleY; rewrite Hm, Hr, Ht, Hh.
  cbn [sub add neg mul div]; apply Qc_is0_false in Hnz; rewrite Hnz.
  reflexivity.
Qed.

(** C5, as the code has it: the minimum price is drawn on the bottom edge
    of the plot area (top padding + plot height) whatever the series; the
    maximum price is drawn on the top edge (top padding) when the prices
    are not all equal; when they are all equal the range is replaced by 1
    and the one price, minimum and maximum at once, is drawn on the
    bottom edge. *)
Theorem scaleY_extremes (cd : list point) :
  cd <> [] ->
  scaleY cd (minP cd) = (PAD.top + chartH)%num /\
  (~ flat_series cd -> scaleY cd (maxP cd) = PAD.top) /\
  (flat_series cd -> scaleY cd (maxP cd) = (PAD.top + chartH)%num).
Proof.
  intros Hne.
  destruct (extremes cd Hne) as (m & M & Hm & HM & Im & IM & Hb).
  destruct viewport_finite as (t & h & l & w & Ht & Hh & _ & _).
  pose proof (flat_extremes cd m M Im IM Hb) as Hflat.
  destruct (rangeP_Fin cd m M Hm HM) as [Req Rne].
  assert (Hbot : forall r, rangeP cd = Fin r -> r <> 0 ->
                 scaleY cd (Fin m) = (PAD.top + chartH)%num).
  { intros r Hr Hnz.
    rewrite (scaleY_Fin cd m r t h m Hm Hr Hnz Ht Hh), Ht, Hh.
    cbn [add]; f_equal; field; exact Hnz. }
  assert (H1 : (1 : Qc) <> 0) by exact Q_apart_0_1.
  assert (Hd : forall a b : Qc, a <> b -> b - a <> 0).
  { intros a b Hab E; apply Hab; symmetry.
    rewrite <- (Qcplus_0_l a), <- E; ring. }
  rewrite Hm, HM; repeat split.
  - destruct (Qc_eq_dec m M) as [E|E].
    + exact (Hbot 1 (Req E) H1).
    + exact (Hbot (M - m) (Rne E) (Hd m M E)).
  - intros Hnf.
    assert (E : m <> M) by (intros E; apply Hnf, Hflat, E).
    rewrite (scaleY_Fin cd m (M - m) t h M Hm (Rne E) (Hd m M E) Ht Hh), Ht.
    f_equal; field; exact (Hd m M E).
  - intros Hf; apply Hflat in Hf; subst M.
    exact (Hbot 1 (Req eq_refl) H1).
Qed.

Lemma two_not_flat : ~ flat_series Samples.two.
Proof.
  intros H.
  specialize (H (Samples.sample 1 100 1) (Samples.sample 2 200 1)).
  cbn in H. assert (E : Samples.q 100 1 = Samples.q 200 1) by auto.
  apply (f_equal this) in E; vm_compute in E; discriminate.
Qed.

(** The theorem on the series 100, 200. *)
Lemma scaleY_extremes_witness :
  scaleY Samples.two (minP Samples.two) = (PAD.top + chartH)%num /\
  scaleY Samples.two (maxP Samples.two) = PAD.top.
Proof.
  assert (Hne : Samples.two <> []) by discriminate.
  pose proof (scaleY_extremes Samples.two Hne) as H.
  split; [exact (proj1 H) | exact (proj1 (proj2 H) two_not_flat)].
Defined.

(** C5 fails as stated on a flat series: with the two samples 5, 5 the
    maximum price is drawn at 260, the bottom edge, and the top edge is
    at 20. *)
Lemma flat_max_on_bottom_edge :
  (2 <= List.length Samples.flat)%nat /\
  flat_series Samples.flat /\
  scaleY Samples.flat (maxP Samples.flat) = of_Z 260 /\
  PAD.top = of_Z 20 /\
  scaleY Samples.flat (maxP Samples.flat) <> PAD.top.
Proof.
  split; [simpl; lia|]. split.
  - intros d d' [<-|[<-|[]]] [<-|[<-|[]]]; reflexivity.
  - split; [num_eq|]. split; [reflexivity|]. num_neq.
Qed.

End ChartFacts.

(* ------------------------------------------------------------------ *)
(** ** The abscissa: a single sample, and the hover layer *)

Module HoverFacts.

Import Number Text CryptoModal NumberFacts ChartFacts.

(** C7 at its failing input: on a series of one sample the index is
    divided by [chartData.length - 1 = 0]; the abscissa of the sample is
    [NaN], not the left padding, the line path carries it, and so does
    the only rectangle of the hover layer. *)
Theorem single_sample_scaleX_NaN (d : point) :
  scaleX [d] 0 = NaN /\
  scaleX [d] 0 <> PAD.left /\
  map r_x (hoverRects [d]) = [NaN] /\
  linePath Samples.single = "M NaN,260.0"%string /\
  option_map f_linePath (renderChart Samples.single)
    = Some "M NaN,260.0"%string.
Proof.
  assert (E : scaleX [d] 0 = NaN) by (vm_compute; reflexivity).
  split; [exact E|]. split; [rewrite E; discriminate|].
  split; [|split; vm_compute; reflexivity].
  unfold hoverRects, mapi; cbn [mapi_from map r_x]; rewrite E; reflexivity.
Qed.

Lemma mapi_from_nth {A B : Type} (f : A -> nat -> B) (l : list A)
  (k i : nat) :
  nth_error (mapi_from k f l) i
  = option_map (fun d => f d (k + i)%nat) (nth_error l i).
Proof.
  revert k i; induction l as [|a l IH]; intros k i.
  - destruct i; reflexivity.
  - destruct i as [|i]; cbn [mapi_from nth_error option_map].
    + now rewrite Nat.add_0_r.
    + rewrite IH; now rewrite Nat.add_succ_r.
Qed.

(** What holds of the hover layer for every series: there is one
    rectangle per sample, all of width [chartW / chartData.length],
    starting half a width left of [scaleX(i)], and entering the [i]-th
    one stores the [i]-th sample with its own coordinates. *)
Lemma hoverRects_nth (cd : list point) (i : nat) (r : rect) :
  nth_error (hoverRects cd) i = Some r ->
  exists d, nth_error cd i = Some d /\
    r_width r = (chartW / len cd)%num /\
    r_x r = (scaleX cd i - chartW / len cd / of_Z 2)%num /\
    h_date (onMouseEnter r) = date d /\
    h_price (onMouseEnter r) = price d /\
    h_x (onMouseEnter r) = scaleX cd i /\
    h_y (onMouseEnter r) = scaleY cd (Fin (price d)).
Proof.
  unfold hoverRects, mapi; rewrite mapi_from_nth.
  destruct (nth_error cd i) as [d|]; [|discriminate].
  cbn [option_map Nat.add]; intros E; injection E as <-.
  exists d; repeat split.
Qed.

Lemma mapi_from_length {A B : Type} (f : A -> nat -> B) (l : list A)
  (k : nat) : List.length (mapi_from k f l) = List.length l.
Proof.
  revert k; induction l as [|a l IH]; intros k; cbn [mapi_from List.length];
    [reflexivity | now rewrite IH].
Qed.

Lemma hoverRects_length (cd : list point) :
  List.length (hoverRects cd) = List.length cd.
Proof. apply mapi_from_length. Qed.

Section Bands.

Local Open Scope Qc_scope.

Lemma nq_ge (n k : nat) : (k <= n)%nat -> nq k <= nq n.
Proof.
  intros H; unfold nq; Qc_to_Q.
  rewrite <- Zle_Qle; lia.
Qed.

Lemma nq_lt (n k : nat) : (k < n)%nat -> nq k < nq n.
Proof.
  intros H; unfold nq; Qc_to_Q.
  rewrite <- Zlt_Qlt; lia.
Qed.

Lemma nq_minus_1 (n : nat) : (2 <= n)%nat -> nq n - 1 <> 0.
Proof.
  intros Hn E. pose proof (nq_lt n 1 ltac:(lia)) as Hlt.
  change (nq 1) with 1 in Hlt.
  apply (Qclt_not_eq _ _ Hlt). symmetry.
  rewrite <- (Qcplus_0_l 1), <- E; ring.
Qed.

Lemma nq_nonzero (n : nat) : (2 <= n)%nat -> nq n <> 0.
Proof.
  intros Hn E. pose proof (nq_lt n 0 ltac:(lia)) as Hlt.
  change (nq 0) with 0 in Hlt. rewrite E in Hlt.
  exact (Qclt_not_eq _ _ Hlt eq_refl).
Qed.

Lemma chartW_value : chartW = Fin (Q2Qc 720).
Proof. num_eq. Qed.

(** The abscissa of a sample of a series of two or more. *)
Lemma scaleX_Fin (cd : list point) (i : nat) :
  (2 <= List.length cd)%nat ->
  scaleX cd i
  = Fin (Q2Qc 60 + nq i / (nq (List.length cd) - 1) * Q2Qc 720).
Proof.
  intros Hn.
  pose proof (nq_minus_1 _ Hn) as H1; apply Qc_is0_false in H1.
  unfold scaleX, len, of_nat, of_Z; rewrite chartW_value.
  fold (nq i); fold (nq (List.length cd)).
  change (Q2Qc (inject_Z 1)) with 1.
  cbn [sub add neg mul div PAD.left of_Z].
  fold (Qcminus (nq (List.length cd)) 1); rewrite H1; reflexivity.
Qed.

(** Half the width of a band. *)
Lemma half_band (cd : list point) :
  (2 <= List.length cd)%nat ->
  (chartW / len cd)%num = Fin (Q2Qc 720 / nq (List.length cd)) /\
  (chartW / len cd / of_Z 2)%num
  = Fin (Q2Qc 720 / nq (List.length cd) / Q2Qc 2).
Proof.
  intros Hn.
  pose proof (nq_nonzero _ Hn) as H0; apply Qc_is0_false in H0.
  unfold len, of_nat, of_Z; rewrite chartW_value.
  fold (nq (List.length cd)); cbn [div]; rewrite H0.
  split; reflexivity.
Qed.

Lemma band_Fin (cd : list point) (i : nat) (r : rect) :
  (2 <= List.length cd)%nat ->
  nth_error (hoverRects cd) i = Some r ->
  r_x r = Fin (Q2Qc 60 + nq i / (nq (List.length cd) - 1) * Q2Qc 720
               - Q2Qc 720 / nq (List.length cd) / Q2Qc 2) /\
  r_width r = Fin (Q2Qc 720 / nq (List.length cd)).
Proof.
  intros Hn Hr.
  destruct (hoverRects_nth cd i r Hr) as (d & _ & Hw & Hx & _).
  destruct (half_band cd Hn) as [Hb Hh].
  rewrite Hx, Hh, Hw, Hb, (scaleX_Fin cd i Hn); split; reflexivity.
Qed.
(** The reciprocals of [n] and [n - 1] for [n >= 2]. *)
Lemma reciprocals (n : nat) :
  (2 <= n)%nat ->
  let N := inject_Z (Z.of_nat n) in
  (0 < / N /\ / N < / (N + - (1)) /\ / (N + - (1)) <= 1)%Q.
Proof.
  intros Hn N.
  assert (HN : (2 <= N)%Q) by (unfold N; rewrite <- (Zle_Qle 2); lia).
  assert (H1 : (0 < N + - (1))%Q) by lra.
  assert (H0 : (0 < N)%Q) by lra.
  split; [now apply Qinv_lt_0_compat|]. split.
  - apply (proj1 (Qinv_lt_contravar (N + - (1)) N H1 H0)); lra.
  - change 1%Q with (/ 1)%Q at 2.
    destruct (Qle_lt_or_eq 1 (N + - (1))%Q ltac:(lra)) as [Hlt|Heq].
    + apply Qlt_le_weak.
      apply (proj1 (Qinv_lt_contravar 1 (N + - (1)) ltac:(lra) H1)); exact Hlt.
    + rewrite <- Heq; apply Qle_refl.
Qed.

Lemma gap_point_left (n : nat) :
  (2 <= n)%nat ->
  Q2Qc 60 + 0 / (nq n - 1) * Q2Qc 720 - Q2Qc 720 / nq n / Q2Qc 2
    + Q2Qc 720 / nq n
  < Q2Qc 60 + Q2Qc 360 / (nq n - 1).
Proof.
  intros Hn; destruct (reciprocals n Hn) as (Hb & Hab & Ha).
  unfold nq; Qc_to_Q. unfold Qdiv.
  set (a := (/ (inject_Z (Z.of_nat n) + - (1)))%Q) in *.
  set (b := (/ inject_Z (Z.of_nat n))%Q) in *.
  change (/ 2)%Q with (1 # 2)%Q. lra.
Qed.

Lemma gap_point_right (n i : nat) :
  (2 <= n)%nat -> (1 <= i)%nat ->
  Q2Qc 60 + Q2Qc 360 / (nq n - 1)
  < Q2Qc 60 + nq i / (nq n - 1) * Q2Qc 720 - Q2Qc 720 / nq n / Q2Qc 2.
Proof.
  intros Hn Hi; destruct (reciprocals n Hn) as (Hb & Hab & Ha).
  assert (HI : (1 <= inject_Z (Z.of_nat i))%Q)
    by (rewrite <- (Zle_Qle 1); lia).
  unfold nq; Qc_to_Q. unfold Qdiv.
  set (a := (/ (inject_Z (Z.of_nat n) + - (1)))%Q) in *.
  set (b := (/ inject_Z (Z.of_nat n))%Q) in *.
  set (I := inject_Z (Z.of_nat i)) in *.
  change (/ 2)%Q with (1 # 2)%Q.
  assert (Hp : (a <= I * a)%Q) by nra.
  lra.
Qed.

Lemma gap_point_inside (n : nat) :
  (2 <= n)%nat ->
  Q2Qc 60 < Q2Qc 60 + Q2Qc 360 / (nq n - 1) /\
  Q2Qc 60 + Q2Qc 360 / (nq n - 1) < Q2Qc 780.
Proof.
  intros Hn; destruct (reciprocals n Hn) as (Hb & Hab & Ha).
  unfold nq; Qc_to_Q. unfold Qdiv.
  set (a := (/ (inject_Z (Z.of_nat n) + - (1)))%Q) in *.
  split; lra.
Qed.
Lemma leb_Fin_false (a b : Qc) : b < a -> (Fin a <=? Fin b)%num = false.
Proof.
  intros H; unfold leb, ltb, eqb.
  assert (E1 : Qc_ltb a b = false)
    by (apply Qc_ltb_false; now apply Qclt_le_weak).
  assert (E2 : Qc_eq_bool a b = false).
  { unfold Qc_eq_bool; destruct (Qc_eq_dec a b) as [E|_]; [|reflexivity].
    subst b; exfalso; exact (Qclt_not_eq _ _ H eq_refl). }
  rewrite E1, E2; reflexivity.
Qed.

Lemma ltb_Fin_true (a b : Qc) : a < b -> (Fin a <? Fin b)%num = true.
Proof. intros H; cbn [ltb]; now apply Qc_ltb_spec. Qed.

(** For every series of two or more samples there is a point of the
    plot, half way between the first two samples, that no band covers. *)
Lemma hover_bands_never_cover (cd : list point) :
  (2 <= List.length cd)%nat ->
  let px := Fin (Q2Qc 60 + Q2Qc 360 / (nq (List.length cd) - 1)) in
  (PAD.left <? px)%num = true /\
  (px <? W - PAD.right)%num = true /\
  forall r, In r (hoverRects cd) -> over r px = false.
Proof.
  intros Hn px.
  destruct (gap_point_inside _ Hn) as [Hl Hr].
  split; [apply ltb_Fin_true; exact Hl|].
  split.
  { replace (W - PAD.right)%num with (Fin (Q2Qc 780)) by (symmetry; num_eq).
    apply ltb_Fin_true; exact Hr. }
  intros r Hin; apply In_nth_error in Hin; destruct Hin as [i Hi].
  destruct (band_Fin cd i r Hn Hi) as (Hx & Hw).
  unfold over; rewrite Hx, Hw; cbn [add]; unfold px.
  destruct i as [|i].
  - change (nq 0) with 0.
    rewrite (leb_Fin_false _ _ (gap_point_left _ Hn)); apply andb_false_r.
  - rewrite (leb_Fin_false _ _ (gap_point_right _ (S i) Hn ltac:(lia))).
    reflexivity.
Qed.

Lemma bands_apart (n i j : nat) :
  (2 <= n)%nat -> (i < j)%nat ->
  Q2Qc 60 + nq i / (nq n - 1) * Q2Qc 720 - Q2Qc 720 / nq n / Q2Qc 2
    + Q2Qc 720 / nq n
  < Q2Qc 60 + nq j / (nq n - 1) * Q2Qc 720 - Q2Qc 720 / nq n / Q2Qc 2.
Proof.
  intros Hn Hij; destruct (reciprocals n Hn) as (Hb & Hab & Ha).
  assert (HI : (inject_Z (Z.of_nat i) + 1 <= inject_Z (Z.of_nat j))%Q).
  { change 1%Q with (inject_Z 1); rewrite <- inject_Z_plus, <- Zle_Qle; lia. }
  unfold nq; Qc_to_Q. unfold Qdiv.
  set (a := (/ (inject_Z (Z.of_nat n) + - (1)))%Q) in *.
  set (b := (/ inject_Z (Z.of_nat n))%Q) in *.
  set (I := inject_Z (Z.of_nat i)) in *.
  set (J := inject_Z (Z.of_nat j)) in *.
  change (/ 2)%Q with (1 # 2)%Q.
  assert (Hp : (I * a + a <= J * a)%Q) by nra.
  lra.
Qed.

(** What does hold of the bands of a series of two or more samples: they
    have one width, each starts half a width left of the abscissa of its
    sample, and a band ends before the next one starts. *)
Lemma hover_bands_disjoint_centred (cd : list point) (i j : nat)
  (ri rj : rect) :
  (2 <= List.length cd)%nat ->
  nth_error (hoverRects cd) i = Some ri ->
  nth_error (hoverRects cd) j = Some rj ->
  r_width ri = r_width rj /\
  r_x ri = (scaleX cd i - r_width ri / of_Z 2)%num /\
  ((i < j)%nat -> (r_x ri + r_width ri <? r_x rj)%num = true).
Proof.
  intros Hn Hi Hj.
  destruct (band_Fin cd i ri Hn Hi) as (Hxi & Hwi).
  destruct (band_Fin cd j rj Hn Hj) as (Hxj & Hwj).
  split; [congruence|]. split.
  - destruct (hoverRects_nth cd i ri Hi) as (d & _ & Hw & Hx & _).
    rewrite Hx, Hw; reflexivity.
  - intros Hij; rewrite Hxi, Hwi, Hxj; cbn [add].
    apply ltb_Fin_true, bands_apart; assumption.
Qed.
End Bands.

(** C3 at its failing input: for the two samples 100, 200 the plot spans
    60..780 and the two rectangles span -120..240 and 600..960; the
    pointer at x = 400 is inside the plot and over neither. *)
Theorem hover_bands_leave_gap :
  (PAD.left <=? of_Z 400)%num = true /\
  (of_Z 400 <=? W - PAD.right)%num = true /\
  map (fun r => (r_x r, (r_x r + r_width r)%num)) (hoverRects Samples.two)
    = [(of_Z (-120), of_Z 240); (of_Z 600, of_Z 960)] /\
  map (fun r => over r (of_Z 400)) (hoverRects Samples.two)
    = [false; false].
Proof.
  split; [vm_compute; reflexivity|]. split; [vm_compute; reflexivity|].
  split; [|vm_compute; reflexivity].
  cbn [hoverRects mapi mapi_from Samples.two map r_x r_width].
  repeat (f_equal; try num_eq).
Qed.

End HoverFacts.

(* ------------------------------------------------------------------ *)
(** ** The shape of a printed number *)

Module TextFacts.

Import Number Text.

Lemma text_app (a b : list ascii) :
  text (a ++ b) = (text a ++ text b)%string.
Proof.
  induction a as [|c a IH]; cbn [app text string_of_list_ascii append];
    [reflexivity|].
  unfold text in IH; now rewrite IH.
Qed.

Lemma string_of_uint_digits (d : Decimal.uint) :
  all_digits (chars (NilEmpty.string_of_uint d)).
Proof.
  induction d; cbn [NilEmpty.string_of_uint chars list_ascii_of_string];
    constructor; solve [reflexivity | assumption].
Qed.

Lemma digits_all (n : N) : all_digits (digits n).
Proof.
  unfold digits, NilZero.string_of_uint.
  destruct (N.to_uint n); try apply string_of_uint_digits.
  repeat constructor.
Qed.

Lemma digits_nonempty (n : N) : digits n <> [].
Proof.
  unfold digits, NilZero.string_of_uint.
  destruct (N.to_uint n); discriminate.
Qed.

(** [split_digits] yields a non-empty integer part and exactly [f]
    fraction digits, all of them digits when the input is. *)
Lemma split_digits_shape (m : list ascii) (f : nat) :
  let (int, frac) := split_digits m f in
  List.length frac = f /\ int <> [] /\
  (List.length int + f = Nat.max (List.length m) (f + 1))%nat /\
  (all_digits m -> all_digits int /\ all_digits frac).
Proof.
  unfold split_digits.
  set (m' := if (List.length m <=? f)%nat
             then (repeat "0"%char (f + 1 - List.length m) ++ m)%list
             else m).
  assert (Hlen : (f < List.length m')%nat).
  { unfold m'; destruct (Nat.leb_spec (List.length m) f) as [H|H].
    - rewrite length_app, repeat_length; lia.
    - exact H. }
  assert (Hd : all_digits m -> all_digits m').
  { unfold m', all_digits; intros Hm.
    destruct (List.length m <=? f)%nat; [|exact Hm].
    apply Forall_app; split; [|exact Hm].
    apply Forall_forall; intros c Hc; apply repeat_spec in Hc; now subst c. }
  assert (Hm' : List.length m' = Nat.max (List.length m) (f + 1)).
  { unfold m'; destruct (Nat.leb_spec (List.length m) f) as [H|H].
    - rewrite length_app, repeat_length; lia.
    - lia. }
  split; [rewrite length_skipn; lia|]. split; [|split].
  - intros E; apply (f_equal (@List.length ascii)) in E.
    rewrite length_firstn in E; cbn [List.length] in E; lia.
  - rewrite length_firstn; lia.
  - intros Hm; apply Forall_app.
    rewrite firstn_skipn; exact (Hd Hm).
Qed.

(** [x.toFixed(f)] for [f > 0]: an optional minus, integer digits, the
    point, and exactly [f] fraction digits. *)
Lemma toFixedQ_shape (x : Qc) (f : nat) :
  f <> 0%nat ->
  exists (sign : string) (int frac : list ascii),
    toFixedQ x f = (sign ++ text int ++ "." ++ text frac)%string /\
    (sign = ""%string \/ sign = "-"%string) /\
    int <> [] /\ all_digits int /\
    List.length frac = f /\ all_digits frac.
Proof.
  intros Hf; unfold toFixedQ, place_point.
  set (s := Qc_ltb x 0%Qc).
  set (n := round_half_up (if s then (- x)%Qc else x) f).
  destruct f as [|f]; [congruence|].
  pose proof (split_digits_shape (digits n) (S f)) as H.
  destruct (split_digits (digits n) (S f)) as [int frac].
  destruct H as (Hl & Hi & _ & Hd).
  destruct (Hd (digits_all n)) as [Di Df].
  exists (if s then "-" else "")%string, int, frac.
  rewrite text_app; repeat split; auto.
  destruct s; auto.
Qed.

(** [x.toFixed(0)]: an optional minus and integer digits, no point. *)
Lemma toFixedQ_0_shape (x : Qc) :
  exists (sign : string) (int : list ascii),
    toFixedQ x 0 = (sign ++ text int)%string /\
    (sign = ""%string \/ sign = "-"%string) /\
    int <> [] /\ all_digits int.
Proof.
  unfold toFixedQ.
  set (s := Qc_ltb x 0%Qc).
  set (n := round_half_up (if s then (- x)%Qc else x) 0).
  exists (if s then "-" else "")%string, (digits n).
  repeat split; [destruct s; auto | apply digits_nonempty | apply digits_all].
Qed.

(** The locale currency format of a finite number: an optional minus,
    the dollar, the grouped integer digits, the point and two fraction
    digits; the digits are those [toFixed(2)] prints. *)
Lemma intl_usd_shape (x : Qc) :
  exists (sign : string) (int frac : list ascii),
    intl_usd (Fin x)
      = (sign ++ "$" ++ text (group int) ++ "." ++ text frac)%string /\
    toFixedQ x 2 = (sign ++ text int ++ "." ++ text frac)%string /\
    (sign = ""%string \/ sign = "-"%string) /\
    int <> [] /\ all_digits int /\
    List.length frac = 2%nat /\ all_digits frac.
Proof.
  unfold intl_usd, toFixedQ, place_point.
  set (s := Qc_ltb x 0%Qc).
  set (n := round_half_up (if s then (- x)%Qc else x) 2).
  pose proof (split_digits_shape (digits n) 2) as H.
  destruct (split_digits (digits n) 2) as [int frac].
  destruct H as (Hl & Hi & _ & Hd).
  destruct (Hd (digits_all n)) as [Di Df].
  exists (if s then "-" else "")%string, int, frac.
  rewrite !text_app; repeat split; auto.
  destruct s; auto.
Qed.

(** The number of digits printed, against the size of the number. *)
Lemma length_string_of_uint (d : Decimal.uint) :
  List.length (chars (NilEmpty.string_of_uint d)) = Decimal.nb_digits d.
Proof. induction d; cbn; auto. Qed.

Lemma usize_nb (d : Decimal.uint) :
  DecimalPos.Unsigned.usize d = N.of_nat (Decimal.nb_digits d).
Proof. induction d; cbn [DecimalPos.Unsigned.usize Decimal.nb_digits]; rewrite ?IHd; lia. Qed.

Lemma of_lu_rev_lower (d : Decimal.uint) :
  (DecimalPos.Unsigned.hd d * 10 ^ DecimalPos.Unsigned.usize (DecimalPos.Unsigned.tl d) <= DecimalPos.Unsigned.of_lu (Decimal.rev d))%N.
Proof.
  destruct d; cbn [DecimalPos.Unsigned.hd DecimalPos.Unsigned.tl]; try (cbn; lia);
  unfold Decimal.rev; cbn [Decimal.revapp]; rewrite DecimalPos.Unsigned.of_lu_revapp;
  cbn [DecimalPos.Unsigned.of_lu]; lia.
Qed.

Lemma normal_head (d : Decimal.uint) :
  Decimal.unorm d = d -> N.of_uint d <> 0%N ->
  DecimalPos.Unsigned.hd d <> 0%N.
Proof.
  intros Hu Hn; destruct d as [|u|u|u|u|u|u|u|u|u|u]; cbn; try discriminate.
  exfalso; rewrite DecimalFacts.unorm_D0 in Hu.
  destruct (Decimal.uint_eq_dec u Decimal.Nil) as [->|Hnil];
    [apply Hn; reflexivity|].
  pose proof (DecimalFacts.nb_digits_unorm u Hnil) as Hnb.
  rewrite Hu in Hnb; cbn [Decimal.nb_digits] in Hnb; lia.
Qed.

Lemma to_uint_head (n : N) : n <> 0%N ->
  DecimalPos.Unsigned.hd (N.to_uint n) <> 0%N.
Proof.
  intros Hn; apply normal_head.
  - rewrite <- (DecimalN.Unsigned.of_to n) at 2.
    symmetry; apply DecimalN.Unsigned.to_of.
  - now rewrite DecimalN.Unsigned.of_to.
Qed.

Lemma digits_lower_bound (n : N) :
  n <> 0%N -> (10 ^ (N.of_nat (List.length (digits n)) - 1) <= n)%N.
Proof.
  intros Hn.
  pose proof (to_uint_head n Hn) as Hh.
  pose proof (DecimalN.Unsigned.of_to n) as Hof.
  unfold N.of_uint in Hof; rewrite DecimalPos.Unsigned.of_uint_alt in Hof.
  pose proof (of_lu_rev_lower (N.to_uint n)) as Hlow; rewrite Hof in Hlow.
  unfold digits, NilZero.string_of_uint.
  destruct (N.to_uint n) as [|d|d|d|d|d|d|d|d|d|d];
    try (cbn in Hh; congruence);
    rewrite length_string_of_uint; cbn [Decimal.nb_digits];
    cbn [DecimalPos.Unsigned.hd DecimalPos.Unsigned.tl] in Hlow;
    rewrite usize_nb in Hlow;
    replace (N.of_nat (S (Decimal.nb_digits d)) - 1)%N with (N.of_nat (Decimal.nb_digits d)) by lia;
    nia.
Qed.

Lemma digits_length_bound (n : N) (k : nat) :
  (n < 10 ^ N.of_nat k)%N -> (List.length (digits n) <= Nat.max 1 k)%nat.
Proof.
  intros Hlt.
  destruct (N.eq_dec n 0) as [->|Hn];
    [change (List.length (digits 0)) with 1%nat; lia|].
  pose proof (digits_lower_bound n Hn) as Hlow.
  destruct (Nat.le_gt_cases (List.length (digits n)) k) as [H|H]; [lia|].
  exfalso.
  assert (10 ^ N.of_nat k <= 10 ^ (N.of_nat (List.length (digits n)) - 1))%N
    by (apply N.pow_le_mono_r; lia).
  lia.
Qed.

Lemma group_short (l : list ascii) :
  (List.length l <= 3)%nat -> group l = l.
Proof.
  destruct l as [|a [|b [|c [|d l]]]]; cbn [List.length]; intros H;
    try reflexivity; lia.
Qed.

End TextFacts.

(* ------------------------------------------------------------------ *)
(** ** The grid lines of the price axis *)

Module AxisFacts.

Import Number Text CryptoModal NumberFacts ChartFacts TextFacts.
Local Open Scope Qc_scope.

Lemma tick_fraction (i : nat) :
  (i < yLabels)%nat ->
  (of_nat i / (of_nat yLabels - of_Z 1))%num = Fin (quarter i).
Proof.
  unfold yLabels; intros Hi.
  do 5 (destruct i as [|i]; [num_eq|]); lia.
Qed.

Lemma tick_price (cd : list point) (M r : Qc) (i : nat) :
  maxP cd = Fin M -> rangeP cd = Fin r -> (i < yLabels)%nat ->
  (maxP cd - (of_nat i / (of_nat yLabels - of_Z 1)) * rangeP cd)%num
  = Fin (M - quarter i * r).
Proof.
  intros HM Hr Hi; rewrite (tick_fraction i Hi), HM, Hr; reflexivity.
Qed.

Lemma quarter_0 : quarter 0 = 0.
Proof. apply Qc_is_canon; reflexivity. Qed.

Lemma quarter_4 : quarter 4 = 1.
Proof. apply Qc_is_canon; reflexivity. Qed.

Lemma quarter_S (i : nat) : quarter (S i) = quarter i + Q2Qc (1 # 4).
Proof.
  unfold quarter; apply Qc_is_canon; Qc_to_Q.
  rewrite Nat2Z.inj_succ; unfold Z.succ.
  unfold Qeq, Qplus; cbn [Qnum Qden]; lia.
Qed.

Lemma leb_Fin_le (a b : Qc) : a <= b -> (Fin a <=? Fin b)%num = true.
Proof.
  intros H; unfold leb, ltb, eqb.
  destruct (Qcle_lt_or_eq _ _ H) as [Hlt | ->].
  - apply Qc_ltb_spec in Hlt; rewrite Hlt; reflexivity.
  - unfold Qc_eq_bool; destruct (Qc_eq_dec b b);
      [apply orb_true_r | congruence].
Qed.

Lemma tick_descends (M r : Qc) (i : nat) :
  0 < r -> M - quarter (S i) * r <= M - quarter i * r.
Proof.
  rewrite quarter_S; generalize (quarter i); intros q Hpos.
  Qc_to_Q; change (this 0) with 0%Q in Hpos.
  change (Qred (1 # 4)) with (1 # 4)%Q; nra.
Qed.

(** The range the ticks are spread over is positive; it is the
    difference of the extremes when the prices are not all equal. *)
Lemma tick_range (cd : list point) (m M : Qc) :
  minP cd = Fin m -> maxP cd = Fin M -> m <= M ->
  exists r, rangeP cd = Fin r /\ 0 < r /\
            (m <> M -> rangeP cd = (maxP cd - minP cd)%num).
Proof.
  intros Hm HM Hle; destruct (rangeP_Fin cd m M Hm HM) as [Req Rne].
  destruct (Qc_eq_dec m M) as [E|E].
  - exists 1; split; [now apply Req|]. split; [reflexivity | congruence].
  - exists (M - m); split; [now apply Rne|]. split.
    + destruct (Qcle_lt_or_eq _ _ Hle) as [Hlt|Heq]; [|congruence].
      apply Qclt_minus_iff in Hlt; exact Hlt.
    + intros _; rewrite (Rne E), Hm, HM; reflexivity.
Qed.

(** What [toFixed(f)] writes is a decimal figure with [f] decimals. *)
Lemma toFixedQ_decimal (x : Qc) (f : nat) : decimal_text f (toFixedQ x f).
Proof.
  destruct f as [|f].
  - destruct (toFixedQ_0_shape x) as (sign & int & E & Hs & Hi & Hd).
    exists sign, int, []; repeat split; try assumption; [constructor|].
    rewrite E; clear; induction sign as [|c s IH]; cbn [append].
    + induction (text int) as [|c t IH]; cbn [append]; congruence.
    + now f_equal.
  - destruct (toFixedQ_shape x (S f)) as
      (sign & int & frac & E & Hs & Hi & Hd & Hl & Hf); [discriminate|].
    exists sign, int, frac; repeat split; assumption.
Qed.

(** The label rule on a finite price: which of the three forms the
    label takes, and what is printed in it. *)
Lemma yLabel_shape (p : Qc) :
  (Q2Qc 1000 <= p ->
   exists s, yLabel (Fin p) = ("$" ++ s ++ "k")%string /\
             decimal_text 1 s) /\
  (p < 1 ->
   yLabel (Fin p) = ("$" ++ toFixedQ p 4)%string /\
   decimal_text 4 (toFixedQ p 4)) /\
  (1 <= p -> p < Q2Qc 1000 ->
   yLabel (Fin p) = ("$" ++ toFixedQ p 0)%string /\
   decimal_text 0 (toFixedQ p 0)).
Proof.
  unfold yLabel, geb, ltb, eqb, of_Z.
  change (Q2Qc (inject_Z 1000)) with (Q2Qc 1000).
  change (Q2Qc (inject_Z 1)) with 1.
  assert (Hbelow : p < Q2Qc 1000 ->
                   Qc_ltb (Q2Qc 1000) p || Qc_eq_bool p (Q2Qc 1000) = false).
  { intros Hlt.
    assert (E1 : Qc_ltb (Q2Qc 1000) p = false)
      by (apply Qc_ltb_false; now apply Qclt_le_weak).
    assert (E2 : Qc_eq_bool p (Q2Qc 1000) = false).
    { unfold Qc_eq_bool; destruct (Qc_eq_dec p (Q2Qc 1000)) as [E|_];
        [|reflexivity].
      exfalso; exact (Qclt_not_eq _ _ Hlt E). }
    rewrite E1, E2; reflexivity. }
  repeat split.
  - intros H; exists (toFixedQ (p / Q2Qc 1000) 1).
    split; [|apply toFixedQ_decimal].
    destruct (Qcle_lt_or_eq _ _ H) as [Hlt|Heq].
    + apply Qc_ltb_spec in Hlt; rewrite Hlt; reflexivity.
    + subst p; reflexivity.
  - assert (Hlt : p < Q2Qc 1000)
      by (apply Qclt_trans with 1; [assumption | reflexivity]).
    rewrite (Hbelow Hlt).
    match goal with H : p < 1 |- _ => apply Qc_ltb_spec in H; rewrite H end.
    reflexivity.
  - apply toFixedQ_decimal.
  - match goal with H : p < Q2Qc 1000 |- _ => rewrite (Hbelow H) end.
    match goal with H : 1 <= p |- _ => apply Qc_ltb_false in H; rewrite H end.
    reflexivity.
  - apply toFixedQ_decimal.
Qed.




End AxisFacts.

(* ------------------------------------------------------------------ *)
(** ** The two price formatters *)

Module FormatFacts.

Import Number Text Value NumberFacts TextFacts.
Local Open Scope string_scope.

(** Absent, zero and [NaN] prices print as $0.00 in both components. *)
Lemma formatPrice_absent :
  CryptoCard.formatPrice Undefined = "$0.00" /\
  CryptoCard.formatPrice Null = "$0.00" /\
  CryptoCard.formatPrice (Num (of_Z 0)) = "$0.00" /\
  CryptoCard.formatPrice (Num NaN) = "$0.00" /\
  CryptoModal.formatPrice Undefined = "$0.00" /\
  CryptoModal.formatPrice Null = "$0.00" /\
  CryptoModal.formatPrice (Num (of_Z 0)) = "$0.00" /\
  CryptoModal.formatPrice (Num NaN) = "$0.00".
Proof. repeat split. Qed.

Lemma truthy_pos (x : Qc) : (0 < x)%Qc -> truthy (Fin x) = true.
Proof.
  intros H; cbn [truthy].
  destruct (Qc_is0 x) eqn:E; [|reflexivity].
  apply Qc_is0_spec in E; subst x; exfalso; exact (Qclt_not_eq _ _ H eq_refl).
Qed.

(** The branches of the card's [formatPrice] on a positive price. *)
Lemma card_formatPrice_branches (x : Qc) :
  (0 < x)%Qc ->
  ((x < Q2Qc (1 # 100))%Qc ->
   CryptoCard.formatPrice (Num (Fin x)) = "$" ++ toFixedQ x 6) /\
  ((Q2Qc (1 # 100) <= x)%Qc -> (x < 1)%Qc ->
   CryptoCard.formatPrice (Num (Fin x)) = "$" ++ toFixedQ x 4) /\
  ((1 <= x)%Qc -> (x < Q2Qc 1000)%Qc ->
   CryptoCard.formatPrice (Num (Fin x)) = "$" ++ toFixedQ x 2) /\
  ((Q2Qc 1000 <= x)%Qc ->
   CryptoCard.formatPrice (Num (Fin x)) = intl_usd (Fin x)).
Proof.
  intros Hpos; unfold CryptoCard.formatPrice, falsy, to_num.
  rewrite (truthy_pos x Hpos); cbn [negb ltb Number.of_Q of_Z toFixed].
  change (Q2Qc (inject_Z 1)) with 1%Qc.
  change (Q2Qc (inject_Z 1000)) with (Q2Qc 1000).
  assert (H01 : (Q2Qc (1 # 100) < 1)%Qc) by reflexivity.
  assert (H1k : (1 < Q2Qc 1000)%Qc) by reflexivity.
  repeat split.
  - intros H; apply Qc_ltb_spec in H; rewrite H; reflexivity.
  - intros H1 H2.
    apply Qc_ltb_false in H1; apply Qc_ltb_spec in H2.
    rewrite H1, H2; reflexivity.
  - intros H1 H2.
    assert (H0 : (Q2Qc (1 # 100) <= x)%Qc)
      by (apply Qcle_trans with 1%Qc; [now apply Qclt_le_weak | exact H1]).
    apply Qc_ltb_false in H0, H1; apply Qc_ltb_spec in H2.
    rewrite H0, H1, H2; reflexivity.
  - intros H.
    assert (H1 : (1 <= x)%Qc)
      by (apply Qcle_trans with (Q2Qc 1000); [now apply Qclt_le_weak | exact H]).
    assert (H0 : (Q2Qc (1 # 100) <= x)%Qc)
      by (apply Qcle_trans with 1%Qc; [now apply Qclt_le_weak | exact H1]).
    apply Qc_ltb_false in H0, H1, H; rewrite H0, H1, H; reflexivity.
Qed.

(** The branches of the modal's [formatPrice] on a positive price. *)
Lemma modal_formatPrice_branches (x : Qc) :
  (0 < x)%Qc ->
  ((x < Q2Qc (1 # 100))%Qc ->
   CryptoModal.formatPrice (Num (Fin x)) = "$" ++ toFixedQ x 6) /\
  ((Q2Qc (1 # 100) <= x)%Qc -> (x < 1)%Qc ->
   CryptoModal.formatPrice (Num (Fin x)) = "$" ++ toFixedQ x 4) /\
  ((1 <= x)%Qc ->
   CryptoModal.formatPrice (Num (Fin x)) = intl_usd (Fin x)).
Proof.
  intros Hpos; unfold CryptoModal.formatPrice, falsy, to_num.
  rewrite (truthy_pos x Hpos); cbn [negb ltb Number.of_Q of_Z toFixed].
  change (Q2Qc (inject_Z 1)) with 1%Qc.
  assert (H01 : (Q2Qc (1 # 100) < 1)%Qc) by reflexivity.
  repeat split.
  - intros H; apply Qc_ltb_spec in H; rewrite H; reflexivity.
  - intros H1 H2.
    apply Qc_ltb_false in H1; apply Qc_ltb_spec in H2.
    rewrite H1, H2; reflexivity.
  - intros H1.
    assert (H0 : (Q2Qc (1 # 100) <= x)%Qc)
      by (apply Qcle_trans with 1%Qc; [now apply Qclt_le_weak | exact H1]).
    apply Qc_ltb_false in H0, H1; rewrite H0, H1; reflexivity.
Qed.

(** The two formatters can only differ on a number from 1 up to, not
    including, 1000. *)
Lemma formatPrice_agree_outside (v : value) :
  (forall x : Qc, v = Num (Fin x) -> (x < 1)%Qc \/ (Q2Qc 1000 <= x)%Qc) ->
  CryptoCard.formatPrice v = CryptoModal.formatPrice v.
Proof.
  intros Hv; destruct v as [| |[|[|]|x]]; try reflexivity.
  unfold CryptoCard.formatPrice, CryptoModal.formatPrice, falsy, to_num.
  destruct (negb (truthy (Fin x))); [reflexivity|].
  destruct (Fin x <? Number.of_Q (1 # 100))%num; [reflexivity|].
  destruct (Fin x <? of_Z 1)%num eqn:E1; [reflexivity|].
  destruct (Hv x eq_refl) as [H|H].
  - cbn [ltb of_Z] in E1; change (Q2Qc (inject_Z 1)) with 1%Qc in E1.
    apply Qc_ltb_spec in H; congruence.
  - cbn [ltb of_Z]; change (Q2Qc (inject_Z 1000)) with (Q2Qc 1000).
    apply Qc_ltb_false in H; rewrite H; reflexivity.
Qed.

Lemma Qc_ltb_0_false (x : Qc) : (1 <= x)%Qc -> Qc_ltb x 0%Qc = false.
Proof.
  intros H; apply Qc_ltb_false.
  apply Qcle_trans with 1%Qc; [discriminate | exact H].
Qed.

(** Below 999.995 the cents round to less than 100000; from 999.995 up
    to 1000 they round to exactly 100000. *)
Lemma round_below (x : Qc) :
  (x < Q2Qc (999995 # 1000))%Qc -> (round_half_up x 2 < 100000)%N.
Proof.
  unfold Qclt; cbn [this Q2Qc]; rewrite Qred_correct; intros H.
  unfold round_half_up.
  set (y := (x * inject_Z (10 ^ Z.of_nat 2) + (1 # 2))%Q).
  assert (Hy : (y < inject_Z 100000)%Q).
  { unfold y; change (inject_Z (10 ^ Z.of_nat 2)) with (100 # 1)%Q. 
    change (inject_Z 100000) with (100000 # 1)%Q. lra. }
  pose proof (Qfloor_le y) as Hf.
  assert (Hz : (Qfloor y < 100000)%Z).
  { rewrite Zlt_Qlt. eapply Qle_lt_trans; eassumption. }
  lia.
Qed.

Lemma round_at (x : Qc) :
  (Q2Qc (999995 # 1000) <= x)%Qc -> (x < Q2Qc 1000)%Qc ->
  round_half_up x 2 = 100000%N.
Proof.
  unfold Qclt, Qcle; cbn [this Q2Qc]; rewrite !Qred_correct; intros H1 H2.
  unfold round_half_up.
  set (y := (x * inject_Z (10 ^ Z.of_nat 2) + (1 # 2))%Q).
  assert (Hy : (inject_Z 100000 <= y)%Q /\ (y < inject_Z 100001)%Q).
  { unfold y; change (inject_Z (10 ^ Z.of_nat 2)) with (100 # 1)%Q. 
    change (inject_Z 100000) with (100000 # 1)%Q.
    change (inject_Z 100001) with (100001 # 1)%Q. split; lra. }
  destruct Hy as [Ha Hb].
  pose proof (Qfloor_le y) as Hf.
  pose proof (Qlt_floor y) as Hc.
  assert (Hz : (Qfloor y < 100001)%Z).
  { rewrite Zlt_Qlt. eapply Qle_lt_trans; eassumption. }
  assert (Hz' : (100000 < Qfloor y + 1)%Z).
  { rewrite Zlt_Qlt. eapply Qle_lt_trans; eassumption. }
  assert (E : Qfloor y = 100000%Z) by lia.
  rewrite E; reflexivity.
Qed.

(** From 999.995 up to 1000 the two print differently. *)
Lemma formatPrice_differ_at_rounding (x : Qc) :
  (Q2Qc (999995 # 1000) <= x)%Qc -> (x < Q2Qc 1000)%Qc ->
  CryptoCard.formatPrice (Num (Fin x)) = "$1000.00" /\
  CryptoModal.formatPrice (Num (Fin x)) = "$1,000.00".
Proof.
  intros H1 Hk.
  assert (H1' : (1 <= x)%Qc)
    by (apply Qcle_trans with (Q2Qc (999995 # 1000)); [discriminate | exact H1]).
  assert (Hpos : (0 < x)%Qc)
    by (apply Qclt_le_trans with 1%Qc; [reflexivity | exact H1']).
  destruct (card_formatPrice_branches x Hpos) as (_ & _ & Hc & _).
  destruct (modal_formatPrice_branches x Hpos) as (_ & _ & Hm).
  rewrite (Hc H1' Hk), (Hm H1').
  unfold intl_usd, toFixedQ.
  rewrite (Qc_ltb_0_false x H1'), (round_at x H1 Hk).
  split; reflexivity.
Qed.
(** C8 at its failing input: 999.9999 is at least 1; the card takes the
    [price < 1000] branch and prints it, rounded to two digits, as
    $1000.00, while the locale currency format of the same number, which
    the modal prints, is $1,000.00. *)
Theorem card_formatPrice_no_separator :
  let x := Value.of_Q (9999999 # 10000) in
  CryptoCard.formatPrice x = "$1000.00" /\
  intl_usd (Number.of_Q (9999999 # 10000)) = "$1,000.00" /\
  CryptoModal.formatPrice x = "$1,000.00" /\
  CryptoCard.formatPrice (Value.of_Q (1000 # 1)) = "$1,000.00" /\
  CryptoCard.formatPrice (Value.of_Q (4523 # 100)) = "$45.23" /\
  CryptoCard.formatPrice (Value.of_Q (53 # 1000000)) = "$0.000053" /\
  CryptoCard.formatPrice (Value.of_Q (4231 # 10000)) = "$0.4231" /\
  CryptoCard.formatPrice (Value.of_Q (6012345 # 100)) = "$60,123.45".
Proof. cbv zeta; repeat split; vm_compute; reflexivity. Qed.

(** C10 at its failing input: the two formatters print 999.999
    differently, the card without and the modal with the thousands
    separator. *)
Theorem formatPrice_card_modal_differ :
  let x := Value.of_Q (999999 # 1000) in
  CryptoCard.formatPrice x = "$1000.00" /\
  CryptoModal.formatPrice x = "$1,000.00" /\
  CryptoCard.formatPrice x <> CryptoModal.formatPrice x.
Proof.
  cbv zeta; split; [vm_compute; reflexivity|].
  split; [vm_compute; reflexivity|].
  vm_compute; discriminate.
Qed.

End FormatFacts.

(* ------------------------------------------------------------------ *)
(** ** The abscissas of the samples *)

Module AbscissaFacts.

Import Number Text CryptoModal NumberFacts ChartFacts HoverFacts.
Local Open Scope Qc_scope.

Lemma leb_Fin_true (a b : Qc) : a <= b -> (Fin a <=? Fin b)%num = true.
Proof.
  intros H; unfold leb, ltb, eqb.
  destruct (Qcle_lt_or_eq _ _ H) as [Hlt | ->].
  - apply Qc_ltb_spec in Hlt; rewrite Hlt; reflexivity.
  - unfold Qc_eq_bool; destruct (Qc_eq_dec b b); [apply orb_true_r | congruence].
Qed.

Lemma nq_S (i : nat) : nq (S i) = nq i + 1.
Proof.
  unfold nq; apply Qc_is_canon; Qc_to_Q.
  rewrite Nat2Z.inj_succ; unfold Z.succ; rewrite inject_Z_plus; reflexivity.
Qed.

Lemma nq_pred (n : nat) : (1 <= n)%nat -> nq (n - 1) = nq n - 1.
Proof.
  intros Hn; destruct n as [|n]; [lia|].
  replace (S n - 1)%nat with n by lia; rewrite nq_S; ring.
Qed.

Lemma abscissa_increasing (n i j : nat) :
  (2 <= n)%nat -> (i < j)%nat ->
  Q2Qc 60 + nq i / (nq n - 1) * Q2Qc 720
  < Q2Qc 60 + nq j / (nq n - 1) * Q2Qc 720.
Proof.
  intros Hn Hij; destruct (reciprocals n Hn) as (Hb & Hab & Ha).
  assert (HI : (inject_Z (Z.of_nat i) < inject_Z (Z.of_nat j))%Q)
    by (rewrite <- Zlt_Qlt; lia).
  unfold nq; Qc_to_Q; unfold Qdiv.
  set (a := (/ (inject_Z (Z.of_nat n) + - (1)))%Q) in *.
  set (I := inject_Z (Z.of_nat i)) in *.
  set (J := inject_Z (Z.of_nat j)) in *.
  assert (Hp : (I * a < J * a)%Q) by nra.
  lra.
Qed.

(** X1: the abscissas of a series of two or more samples run from the
    left padding to the right edge of the plot, strictly to the right
    with the index. *)
Theorem scaleX_span (cd : list point) :
  (2 <= List.length cd)%nat ->
  scaleX cd 0 = PAD.left /\
  scaleX cd (List.length cd - 1) = (W - PAD.right)%num /\
  (forall i j, (i < j)%nat -> (scaleX cd i <? scaleX cd j)%num = true).
Proof.
  intros Hn.
  pose proof (nq_minus_1 _ Hn) as H1.
  split; [|split].
  - rewrite (scaleX_Fin cd 0 Hn); change (nq 0) with 0.
    change PAD.left with (Fin (Q2Qc 60)); f_equal; field; exact H1.
  - rewrite (scaleX_Fin cd _ Hn), nq_pred by lia.
    replace (W - PAD.right)%num with (Fin (Q2Qc 60 + Q2Qc 720))
      by (symmetry; num_eq).
    f_equal; field; exact H1.
  - intros i j Hij; rewrite !(scaleX_Fin cd _ Hn).
    apply ltb_Fin_true, abscissa_increasing; assumption.
Qed.

(** The theorem on the series 100, 200. *)
Lemma scaleX_span_witness :
  scaleX Samples.two 0 = PAD.left /\
  scaleX Samples.two 1 = (W - PAD.right)%num.
Proof.
  assert (Hn : (2 <= List.length Samples.two)%nat) by (simpl; lia).
  pose proof (scaleX_span Samples.two Hn) as H.
  split; [exact (proj1 H) | exact (proj1 (proj2 H))].
Defined.

End AbscissaFacts.

(* ------------------------------------------------------------------ *)
(** ** The ordinates of the samples *)

Module OrdinateFacts.

Import Number Text CryptoModal NumberFacts ChartFacts HoverFacts AbscissaFacts.
Local Open Scope Qc_scope.

Lemma chartH_value : chartH = Fin (Q2Qc 240).
Proof. num_eq. Qed.

(** The share of the range below a price of the series lies between 0
    and 1 and grows with the price. *)
Lemma share_bounds (p p' m r : Qc) :
  0 < r -> m <= p -> p <= p' -> p' - m <= r ->
  0 <= (p - m) / r /\ (p - m) / r <= (p' - m) / r /\ (p' - m) / r <= 1.
Proof.
  intros Hr Hm Hp Hr'.
  Qc_to_Q; unfold Qdiv.
  assert (Hi : (0 < / r)%Q) by (apply Qinv_lt_0_compat; exact Hr).
  assert (H1 : (r * / r == 1)%Q) by (apply Qmult_inv_r; lra).
  set (i := (/ r)%Q) in *.
  assert (A : (0 <= (p + - m) * i)%Q) by nra.
  assert (B : ((p + - m) * i <= (p' + - m) * i)%Q) by nra.
  assert (C : ((p' + - m) * i <= r * i)%Q) by nra.
  repeat split; lra.
Qed.

Lemma range_positive (cd : list point) (m M : Qc) :
  minP cd = Fin m -> maxP cd = Fin M -> m <= M ->
  exists r, rangeP cd = Fin r /\ 0 < r /\ M - m <= r.
Proof.
  intros Hm HM Hle; destruct (rangeP_Fin cd m M Hm HM) as [Req Rne].
  destruct (Qc_eq_dec m M) as [E|E].
  - exists 1; split; [now apply Req|]. split; [reflexivity|].
    subst M; replace (m - m) with 0 by ring; discriminate.
  - exists (M - m); split; [now apply Rne|]. split; [|apply Qcle_refl].
    destruct (Qcle_lt_or_eq _ _ Hle) as [Hlt|Heq]; [|congruence].
    apply Qclt_minus_iff in Hlt; exact Hlt.
Qed.

(** X2: every sample of a non-empty series is drawn at a finite ordinate
    between the top and the bottom edge of the plot area, and of two
    samples the dearer one is drawn at least as high (its ordinate is
    not larger). *)
Theorem scaleY_in_plot (cd : list point) (d d' : point) :
  In d cd -> In d' cd -> (price d <= price d') ->
  is_NaN (scaleY cd (Fin (price d))) = false /\
  (PAD.top <=? scaleY cd (Fin (price d)))%num = true /\
  (scaleY cd (Fin (price d)) <=? PAD.top + chartH)%num = true /\
  (scaleY cd (Fin (price d')) <=? scaleY cd (Fin (price d)))%num = true.
Proof.
  intros Hd Hd' Hle.
  assert (Hne : cd <> []) by (intros E; rewrite E in Hd; exact Hd).
  destruct (extremes cd Hne) as (m & M & Hm & HM & Im & IM & Hb).
  destruct (Hb _ (in_map price _ _ Hd)) as [Hmp HpM].
  destruct (Hb _ (in_map price _ _ Hd')) as [Hmp' HpM'].
  destruct (range_positive cd m M Hm HM (Qcle_trans _ _ _ Hmp HpM))
    as (r & Hr & Hpos & Hwide).
  assert (Hnz : r <> 0) by (intros E; rewrite E in Hpos; discriminate).
  assert (Ht : PAD.top = Fin (Q2Qc 20)) by reflexivity.
  rewrite !(scaleY_Fin cd m r _ _ _ Hm Hr Hnz Ht chartH_value).
  rewrite Ht, chartH_value; cbn [add is_NaN].
  assert (Hw1 : price d - m <= r).
  { apply Qcle_trans with (M - m); [|exact Hwide].
    unfold Qcminus; apply Qcplus_le_compat; [exact HpM | apply Qcle_refl]. }
  assert (Hw2 : price d' - m <= r).
  { apply Qcle_trans with (M - m); [|exact Hwide].
    unfold Qcminus; apply Qcplus_le_compat; [exact HpM' | apply Qcle_refl]. }
  destruct (share_bounds (price d) (price d') m r Hpos Hmp Hle Hw2)
    as (A & B & C).
  destruct (share_bounds (price d) (price d) m r Hpos Hmp (Qcle_refl _) Hw1)
    as (_ & _ & C').
  revert A B C C'.
  set (u := (price d - m) / r); set (u' := (price d' - m) / r).
  intros A B C C'.
  split; [reflexivity|].
  split; [|split]; apply leb_Fin_true; Qc_to_Q; nra.
Qed.

(** The theorem on the series 100, 200. *)
Lemma scaleY_in_plot_witness :
  (PAD.top <=? scaleY Samples.two (of_Z 100))%num = true /\
  (scaleY Samples.two (of_Z 200) <=? scaleY Samples.two (of_Z 100))%num = true.
Proof.
  pose proof (scaleY_in_plot Samples.two (Samples.sample 1 100 1)
                (Samples.sample 2 200 1)) as H.
  destruct H as (_ & A & _ & B).
  - left; reflexivity.
  - right; left; reflexivity.
  - vm_compute; discriminate.
  - split; [exact A | exact B].
Defined.

End OrdinateFacts.

(* ------------------------------------------------------------------ *)
(** ** Grid lines and line colour *)

Module GridFacts.

Import Number Text CryptoModal NumberFacts ChartFacts AxisFacts HoverFacts
  AbscissaFacts OrdinateFacts.
Local Open Scope Qc_scope.

Lemma tick_ordinate (i : nat) :
  (i < yLabels)%nat ->
  (PAD.top + of_nat i * yStep)%num
  = Fin (Q2Qc 20 + quarter i * Q2Qc 240).
Proof.
  unfold yLabels; intros Hi.
  do 5 (destruct i as [|i]; [num_eq|]); lia.
Qed.

(** X3: the five grid lines are drawn at the fixed ordinates 20, 80, 140,
    200 and 260, whatever the series.  When the prices of the series
    are not all equal, the first line, which carries the maximum price,
    is where [scaleY] draws that price, the last line is where [scaleY]
    draws the minimum price, and every sample is drawn from the first
    line down to the last. *)
Theorem grid_lines_span_series (cd : list point) :
  cd <> [] ->
  map t_y (yTicks cd) = map of_Z [20; 80; 140; 200; 260]%Z /\
  (~ flat_series cd ->
   (exists k, nth_error (yTicks cd) 0 = Some k /\
              t_price k = maxP cd /\ t_y k = scaleY cd (t_price k)) /\
   (exists k, nth_error (yTicks cd) 4 = Some k /\
              t_y k = scaleY cd (minP cd)) /\
   (forall d, In d cd ->
      (of_Z 20 <=? scaleY cd (Fin (price d)))%num = true /\
      (scaleY cd (Fin (price d)) <=? of_Z 260)%num = true)).
Proof.
  intros Hne; split.
  { unfold yTicks; rewrite map_map; cbn [t_y seq map yLabels].
    repeat (f_equal; try num_eq). }
  intros Hnf.
  destruct (extremes cd Hne) as (m & M & Hm & HM & Im & IM & Hb).
  pose proof (flat_extremes cd m M Im IM Hb) as Hflat.
  destruct (rangeP_Fin cd m M Hm HM) as [_ Rne].
  assert (E : m <> M) by (intros E; apply Hnf, Hflat, E).
  assert (Hnz : M - m <> 0).
  { intros E0; apply E; symmetry.
    rewrite <- (Qcplus_0_l m), <- E0; ring. }
  assert (HY : forall p, scaleY cd (Fin p)
                         = Fin (Q2Qc 20 + Q2Qc 240 - (p - m) / (M - m) * Q2Qc 240))
    by (intros p; exact (scaleY_Fin cd m (M - m) (Q2Qc 20) (Q2Qc 240) p
                           Hm (Rne E) Hnz eq_refl chartH_value)).
  split; [|split].
  - eexists; split; [reflexivity|]. cbn [t_price t_y].
    assert (Ep : (maxP cd - of_nat 0 / (of_nat yLabels - of_Z 1) * rangeP cd)%num
                 = maxP cd).
    { rewrite (tick_price cd M (M - m) 0 HM (Rne E)) by (unfold yLabels; lia).
      rewrite HM, quarter_0; f_equal; ring. }
    rewrite Ep; split; [reflexivity|].
    rewrite HM, HY, (tick_ordinate 0) by (unfold yLabels; lia).
    rewrite quarter_0; f_equal; field; exact Hnz.
  - eexists; split; [reflexivity|]. cbn [t_y].
    rewrite Hm, HY, (tick_ordinate 4) by (unfold yLabels; lia).
    rewrite quarter_4; f_equal; field; exact Hnz.
  - intros d Hd.
    destruct (Hb _ (in_map price _ _ Hd)) as [Hmp HpM].
    assert (Hpos : 0 < M - m).
    { destruct (Qcle_lt_or_eq m M) as [Hlt|Heq];
        [exact (Qcle_trans _ _ _ Hmp HpM) | | congruence].
      apply Qclt_minus_iff in Hlt; exact Hlt. }
    assert (Hw : price d - m <= M - m).
    { unfold Qcminus; apply Qcplus_le_compat; [exact HpM | apply Qcle_refl]. }
    destruct (share_bounds (price d) (price d) m (M - m) Hpos Hmp
                (Qcle_refl _) Hw) as (A & _ & C).
    rewrite HY; revert A C; set (u := (price d - m) / (M - m)); intros A C.
    unfold of_Z; change (Q2Qc (inject_Z 20)) with (Q2Qc 20).
    change (Q2Qc (inject_Z 260)) with (Q2Qc 260).
    split; apply leb_Fin_true; Qc_to_Q; nra.
Qed.

(** The theorem on the series 100, 200. *)
Lemma grid_lines_span_series_witness :
  exists k, nth_error (yTicks Samples.two) 0 = Some k /\
            t_price k = maxP Samples.two /\
            t_y k = scaleY Samples.two (t_price k).
Proof.
  assert (Hne : Samples.two <> []) by discriminate.
  exact (proj1 (proj2 (grid_lines_span_series Samples.two Hne)
                  two_not_flat)).
Defined.

(** X24: on a series whose prices are all equal, every sample is drawn on
    the last grid line, at the bottom edge of the plot, while that line
    carries the price minus 1; the line that carries the price of the
    series is the first one, at the top edge. *)
Theorem flat_series_drawn_off_label (cd : list point) (p : Qc) :
  cd <> [] -> (forall d, In d cd -> price d = p) ->
  (forall d, In d cd -> scaleY cd (Fin (price d)) = of_Z 260) /\
  exists k0 k4,
    nth_error (yTicks cd) 0 = Some k0 /\
    nth_error (yTicks cd) 4 = Some k4 /\
    t_y k0 = of_Z 20 /\ t_price k0 = Fin p /\
    t_y k4 = of_Z 260 /\ t_price k4 = (Fin p - of_Z 1)%num.
Proof.
  intros Hne Hall.
  destruct (extremes cd Hne) as (m & M & Hm & HM & Im & IM & Hb).
  assert (Em : m = p).
  { apply in_map_iff in Im; destruct Im as (d & <- & Hd); auto. }
  assert (EM : M = p).
  { apply in_map_iff in IM; destruct IM as (d & <- & Hd); auto. }
  subst m M.
  destruct (rangeP_Fin cd p p Hm HM) as [Req _].
  specialize (Req eq_refl).
  assert (H1 : (1 : Qc) <> 0) by discriminate.
  split.
  - intros d Hd; rewrite (Hall d Hd).
    rewrite (scaleY_Fin cd p 1 (Q2Qc 20) (Q2Qc 240) p Hm Req H1
               eq_refl chartH_value).
    unfold of_Z; f_equal; apply Qc_is_canon; Qc_to_Q.
    unfold Qdiv; ring_simplify; reflexivity.
  - do 2 eexists; split; [reflexivity|]. split; [reflexivity|].
    cbn [t_y t_price].
    rewrite (tick_ordinate 0), (tick_ordinate 4) by (unfold yLabels; lia).
    rewrite !(tick_price cd p 1) by (assumption || (unfold yLabels; lia)).
    rewrite quarter_0, quarter_4.
    unfold of_Z; cbn [sub add neg].
    repeat split; f_equal; apply Qc_is_canon; Qc_to_Q; ring_simplify;
      reflexivity.
Qed.

(** The theorem on the single sample of price 5: it is drawn on the
    line that carries 4. *)
Lemma flat_series_drawn_off_label_witness :
  scaleY Samples.single (of_Z 5) = of_Z 260 /\
  map t_label (yTicks Samples.single)
  = ["$5"; "$5"; "$5"; "$4"; "$4"]%string.
Proof.
  assert (Hne : Samples.single <> []) by discriminate.
  assert (Hall : forall d, In d Samples.single -> price d = Samples.q 5 1)
    by (intros d [<-|[]]; reflexivity).
  destruct (flat_series_drawn_off_label Samples.single _ Hne Hall)
    as [Hy _].
  split; [|vm_compute; reflexivity].
  rewrite <- (Hy (Samples.sample 1 5 1)) by (left; reflexivity).
  f_equal; num_eq.
Defined.

End GridFacts.

Module ColourFacts.

Import Number Text CryptoModal NumberFacts.
Local Open Scope Qc_scope.

(** X4: the line is drawn in the up colour exactly when the last price is
    not below the first one (equal prices count as up), and in the down
    colour otherwise. *)
Theorem lineColor_direction (d0 : point) (tl : list point) :
  let cd := d0 :: tl in
  (price d0 <= price (last cd d0) -> lineColor cd = "#00ff88"%string) /\
  (price (last cd d0) < price d0 -> lineColor cd = "#ff4466"%string).
Proof.
  intros cd; unfold lineColor, priceChange, cd.
  set (pl := price (last (d0 :: tl) d0)); set (p0 := price d0).
  cbn [sub add neg]; fold (Qcminus pl p0); unfold geb, ltb, eqb, of_Z.
  change (Q2Qc (inject_Z 0)) with 0.
  split; intros H.
  - destruct (Qcle_lt_or_eq _ _ H) as [Hlt|Heq].
    + apply Qclt_minus_iff in Hlt; fold (Qcminus pl p0) in Hlt.
      apply Qc_ltb_spec in Hlt; rewrite Hlt; reflexivity.
    + rewrite <- Heq; replace (p0 - p0) with 0 by ring; reflexivity.
  - assert (Hneg : pl - p0 < 0).
    { apply Qclt_minus_iff; replace (0 + - (pl - p0)) with (p0 + - pl) by ring.
      apply Qclt_minus_iff in H; exact H. }
    assert (E1 : Qc_ltb 0 (pl - p0) = false)
      by (apply Qc_ltb_false; now apply Qclt_le_weak).
    assert (E2 : Qc_eq_bool (pl - p0) 0 = false).
    { unfold Qc_eq_bool; destruct (Qc_eq_dec (pl - p0) 0) as [E|_];
        [|reflexivity].
      exfalso; exact (Qclt_not_eq _ _ Hneg E). }
    rewrite E1, E2; reflexivity.
Qed.

(** The theorem on the rising series 100, 200 and on the flat one. *)
Lemma lineColor_direction_witness :
  lineColor Samples.two = "#00ff88"%string /\
  lineColor Samples.flat = "#00ff88"%string.
Proof.
  split.
  - apply (proj1 (lineColor_direction (Samples.sample 1 100 1)
                    [Samples.sample 2 200 1])).
    vm_compute; discriminate.
  - apply (proj1 (lineColor_direction (Samples.sample 1 5 1)
                    [Samples.sample 2 5 1])).
    vm_compute; discriminate.
Defined.

End ColourFacts.

(* ------------------------------------------------------------------ *)
(** ** The labels of the time axis *)

Module TimeAxisFacts.

Import Number Text CryptoModal NumberFacts ChartFacts HoverFacts AbscissaFacts.

Lemma Qfloor_div (a b : Z) :
  (0 < b)%Z -> Qfloor (inject_Z a / inject_Z b) = (a / b)%Z.
Proof.
  intros Hb; destruct b as [|p|p]; try lia.
  rewrite <- Qmake_Qdiv; reflexivity.
Qed.

Lemma index_of_nat (k : nat) : index (of_nat k) = Some k.
Proof.
  unfold index, of_nat, of_Z.
  assert (E : Qfloor (Q2Qc (inject_Z (Z.of_nat k))) = Z.of_nat k).
  { cbn [this Q2Qc]; rewrite Qred_correct; apply Qfloor_Z. }
  rewrite E.
  unfold Qc_eq_bool; destruct (Qc_eq_dec _ _) as [_|Hn]; [|congruence].
  destruct (Z.leb_spec 0 (Z.of_nat k)); [|lia].
  cbn [andb]; now rewrite Nat2Z.id.
Qed.

Lemma round_index (n c i : nat) :
  (1 <= n)%nat -> (2 <= c)%nat ->
  Math_round (of_nat i * (of_nat n - of_Z 1) / (of_nat c - of_Z 1))%num
  = of_nat (label_index n c i).
Proof.
  intros Hn Hc.
  assert (H1 : (nq c - 1)%Qc <> 0%Qc) by (apply nq_minus_1; exact Hc).
  apply Qc_is0_false in H1.
  unfold of_nat, of_Z; fold (nq i) (nq n) (nq c).
  change (Q2Qc (inject_Z 1)) with 1%Qc.
  cbn [sub add neg mul div]; fold (Qcminus (nq n) 1) (Qcminus (nq c) 1).
  rewrite H1; cbn [Math_round]; do 3 f_equal.
  set (A := (Z.of_nat i * (Z.of_nat n - 1))%Z).
  set (B := (Z.of_nat c - 1)%Z).
  assert (HB : (0 < B)%Z) by (unfold B; lia).
  assert (E : ((nq i * (nq n - 1) / (nq c - 1))%Qc + (1 # 2)
               == inject_Z (2 * A + B) / inject_Z (2 * B))%Q).
  { unfold nq; Qc_to_Q; unfold A, B.
    unfold Z.sub.
    repeat (rewrite inject_Z_plus || rewrite inject_Z_mult
            || rewrite inject_Z_opp).
    change (inject_Z 1) with 1%Q; change (inject_Z 2) with 2%Q.
    assert (Hd : ~ (inject_Z (Z.of_nat c) + - (1) == 0)%Q).
    { intros E0. assert (2 <= inject_Z (Z.of_nat c))%Q
        by (rewrite <- (Zle_Qle 2); lia). lra. }
    field; repeat split; solve [lra | exact Hd]. }
  rewrite E, Qfloor_div by lia.
  unfold label_index, A, B.
  rewrite Nat2Z.inj_div, Nat2Z.inj_add, !Nat2Z.inj_mul, !Nat2Z.inj_sub by lia.
  f_equal; lia.
Qed.

Lemma label_index_0 (n c : nat) : (2 <= c)%nat -> label_index n c 0 = 0%nat.
Proof. intros Hc; unfold label_index; apply Nat.div_small; lia. Qed.

Lemma label_index_last (n c : nat) :
  (2 <= c)%nat -> label_index n c (c - 1) = (n - 1)%nat.
Proof.
  intros Hc; unfold label_index.
  replace (2 * (c - 1) * (n - 1) + (c - 1))%nat
    with ((n - 1) * (2 * (c - 1)) + (c - 1))%nat by lia.
  rewrite Nat.div_add_l by lia.
  rewrite Nat.div_small by lia; lia.
Qed.

Lemma label_index_mono (n c i j : nat) :
  (i <= j)%nat -> (label_index n c i <= label_index n c j)%nat.
Proof.
  intros Hij; unfold label_index.
  apply Nat.Div0.div_le_mono; nia.
Qed.

(** X5: for a non-empty series the time axis has 7 labels for the 7-day
    period, 6 for the 30-day one and 5 otherwise; the [i]-th label is for
    the sample at index [(2 i (N - 1) + (c - 1)) / (2 (c - 1))] (integer
    division, [c] the number of labels); the first label is for the
    first sample and the last label for the last sample; the indices
    never decrease and are all below [N], so every label is drawn at the
    abscissa of a sample and prints that sample's date, never the empty
    label. *)
Theorem xLabels_in_bounds (cd : list point) (days : Z) :
  cd <> [] ->
  let n := List.length cd in
  let c := xLabelCount days in
  let ks := map (label_index n c) (seq 0 c) in
  (c = if Z.eqb days 7 then 7 else if Z.eqb days 30 then 6 else 5)%nat /\
  xLabelIndices cd days = map of_nat ks /\
  nth_error ks 0 = Some 0%nat /\
  nth_error ks (c - 1) = Some (n - 1)%nat /\
  (forall i j, (i <= j)%nat ->
               (label_index n c i <= label_index n c j)%nat) /\
  Forall (fun k => (k < n)%nat) ks /\
  xTicks cd days
  = map (fun k => {| x_pos := scaleX cd k;
                     x_date := option_map date (nth_error cd k) |}) ks /\
  Forall (fun t => x_date t <> None) (xTicks cd days).
Proof.
  intros Hne n c ks.
  assert (Hn : (1 <= n)%nat)
    by (unfold n; destruct cd; [congruence | simpl; lia]).
  assert (Hc : (2 <= c)%nat).
  { unfold c, xLabelCount.
    destruct (Z.eqb days 7); [lia|]; destruct (Z.eqb days 30); lia. }
  assert (Hidx : xLabelIndices cd days = map of_nat ks).
  { unfold xLabelIndices, ks; fold c; rewrite map_map.
    apply map_ext; intros i; apply round_index; assumption. }
  assert (Hlt : Forall (fun k => (k < n)%nat) ks).
  { unfold ks; apply Forall_forall; intros k Hk.
    apply in_map_iff in Hk; destruct Hk as (i & <- & Hi); apply in_seq in Hi.
    pose proof (label_index_mono n c i (c - 1) ltac:(lia)) as Hm.
    rewrite (label_index_last n c Hc) in Hm; lia. }
  assert (Ht : xTicks cd days
               = map (fun k => {| x_pos := scaleX cd k;
                                  x_date := option_map date (nth_error cd k) |})
                     ks).
  { unfold xTicks; rewrite Hidx, map_map.
    apply map_ext; intros k; rewrite index_of_nat; reflexivity. }
  split; [reflexivity|]. split; [exact Hidx|].
  split.
  { unfold ks; destruct c as [|c']; [lia|].
    cbn [seq map nth_error]; now rewrite label_index_0 by lia. }
  split.
  { unfold ks; rewrite nth_error_map.
    replace (nth_error (seq 0 c) (c - 1)) with (Some (c - 1)%nat).
    - cbn [option_map]; now rewrite label_index_last.
    - symmetry; rewrite nth_error_seq.
      destruct (Nat.ltb_spec (c - 1) c); [reflexivity | lia]. }
  split; [intros i j; apply label_index_mono|].
  split; [exact Hlt|]. split; [exact Ht|].
  rewrite Ht; apply Forall_forall; intros t Hin.
  apply in_map_iff in Hin; destruct Hin as (k & <- & Hk).
  cbn [x_date]; rewrite Forall_forall in Hlt; specialize (Hlt k Hk).
  destruct (nth_error cd k) eqn:E; [discriminate|].
  apply nth_error_None in E; unfold n in Hlt; lia.
Qed.

(** The theorem on three samples over 90 days: the five labels are for
    the samples 0, 1, 1, 2, 2. *)
Lemma xLabels_in_bounds_witness :
  xLabelIndices (points Samples.month) 90 = map of_nat [0; 1; 1; 2; 2]%nat.
Proof.
  assert (Hne : points Samples.month <> []) by discriminate.
  exact (proj1 (proj2 (xLabels_in_bounds (points Samples.month) 90 Hne))).
Defined.

End TimeAxisFacts.

(* ------------------------------------------------------------------ *)
(** ** App: what holds in every reachable state *)

Module AppInvariants.

Import Text Value Coin App AppFacts.
Local Open Scope string_scope.

Lemma run_app (s : state) (es es' : list event) :
  run s (es ++ es') = run (run s es) es'.
Proof. unfold run; apply fold_left_app. Qed.

Lemma step_keeps_filter (s : state) (e : event) :
  filtered s = searchFilter (search s) (cryptos s) ->
  filtered (step s e) = searchFilter (search (step s e)) (cryptos (step s e)).
Proof.
  intros H; destruct e as [|o|t|c| |e]; cbn; try exact H; try reflexivity.
  destruct (pending s); [exact H|]. destruct o; cbn; [reflexivity | exact H].
Qed.

Lemma run_keeps_filter (es : list event) :
  filtered (run mounted es)
  = searchFilter (search (run mounted es)) (cryptos (run mounted es)).
Proof.
  assert (H : forall s0, filtered s0 = searchFilter (search s0) (cryptos s0) ->
              filtered (run s0 es)
              = searchFilter (search (run s0 es)) (cryptos (run s0 es))).
  { induction es as [|e es IH]; intros s0 H0; [exact H0|].
    apply IH, step_keeps_filter, H0. }
  apply H; reflexivity.
Qed.

(** X6: the list held for display follows the search with one render of
    delay.  In the state every event ends in, once the effect on
    [[search, cryptos]] has run, [filtered] is the search filter of the
    loaded list by the current term and the header counts that list;
    this holds in every state reached from the mount.  The render
    committed before the effect runs is another one: after a load it
    shows the whole new list, and counts it, whatever the term; after a
    keystroke it shows the new term with the list filtered for the
    term before.  With "bit" typed, a load of bitcoin and ethereum is
    first rendered with both coins. *)
Theorem filtered_follows_search :
  (forall es,
      let s := run mounted es in
      filtered s = searchFilter (search s) (cryptos s) /\
      v_total (render s)
      = List.length (searchFilter (search s) (cryptos s))) /\
  (forall es e,
      let s := run mounted es in
      last (renders s e) s = step s e /\
      forall r, In r (renders s e) ->
        r = step s e \/
        (exists data,
            e = Settle (Loaded data) /\
            cryptos r = data /\ filtered r = data /\
            search r = search s /\
            v_total (render r) = List.length data) \/
        (exists text,
            e = Type_ text /\
            search r = text /\ cryptos r = cryptos s /\
            filtered r = searchFilter (search s) (cryptos s))) /\
  (exists r,
      In r (renders (run mounted [Type_ "bit"])
              (Settle (Loaded [Samples.bitcoin; Samples.ethereum]))) /\
      filtered r = [Samples.bitcoin; Samples.ethereum] /\
      searchFilter (search r) (cryptos r) = [Samples.bitcoin]).
Proof.
  split; [|split].
  - intros es; cbv zeta; cbn [render v_total].
    rewrite <- run_keeps_filter; auto.
  - intros es e; cbv zeta.
    pose proof (run_keeps_filter es) as Hs.
    set (s := run mounted es) in *.
    destruct e as [|[data|]|t|c| |e]; cbn [renders];
      try (split; [reflexivity | intros r [<-|[]]; left; reflexivity]).
    + cbn [step]; destruct (pending s) as [|n];
        [split; [reflexivity | intros r [<-|[]]; left; reflexivity]|].
      split; [reflexivity|].
      intros r [<-|[<-|[]]]; [right; left | left; reflexivity].
      exists data; repeat split.
    + split; [reflexivity|].
      intros r [<-|[<-|[]]]; [right; right | left; reflexivity].
      exists t; repeat split; exact Hs.
  - eexists; split; [left; reflexivity|]. split; reflexivity.
Qed.

Lemma run_loaded (s : state) (es : list event) :
  loading s = false -> loading (run s es) = false.
Proof.
  revert s; induction es as [|e es IH]; intros s H; [exact H|].
  apply IH; destruct e as [|o|t|c| |e]; cbn; try exact H.
  destruct (pending s); [exact H|]. destruct o; reflexivity.
Qed.

(** X7: the loading line is on the screen exactly until the first request
    of [fetchCryptos] settles, successfully or not; no later refresh,
    keystroke or selection brings it back. *)
Theorem loading_until_first_settle (es : list event) :
  loading (run mounted es) = negb (existsb is_settle es) /\
  (forall es', loading (run mounted es) = false ->
               loading (run mounted (es ++ es')) = false).
Proof.
  split; [|intros es' H; rewrite run_app; now apply run_loaded].
  assert (H : forall s0, loading s0 = true -> pending s0 <> 0%nat ->
              loading (run s0 es) = negb (existsb is_settle es)).
  { induction es as [|e es IH]; intros s0 Hl Hp; [exact Hl|].
    cbn [run fold_left existsb]; fold (run (step s0 e) es).
    destruct e as [|o|t|c| |e]; cbn [is_settle orb negb];
      try (apply IH; cbn; solve [assumption | discriminate]).
    apply run_loaded; cbn.
    destruct (pending s0); [congruence|]. destruct o; reflexivity. }
  apply H; [reflexivity | discriminate].
Qed.

(** X8: the error is cleared only when a fetch starts.  With two requests
    in flight, one that fails and then one that succeeds leave the new
    data loaded and filtered but hidden: the error message stays and the
    render shows the error panel and no list. *)
Theorem success_after_failure_stays_hidden (s : state) (data : list coin) :
  (2 <= pending s)%nat ->
  let s' := run s [Settle Thrown; Settle (Loaded data)] in
  cryptos s' = data /\
  filtered s' = searchFilter (search s) data /\
  error s' = Some failure_message /\
  v_error (render s') = Some failure_message /\
  v_list (render s') = None /\
  v_list (render (step s' Fetch)) = Some (searchFilter (search s) data).
Proof.
  intros Hp; cbn.
  destruct (pending s) as [|[|n]]; try lia.
  cbn; repeat split.
Qed.

(** The theorem after a second fetch was started on top of the first. *)
Lemma success_after_failure_stays_hidden_witness :
  let s := run mounted [Fetch; Settle Thrown;
                        Settle (Loaded [Samples.bitcoin])] in
  cryptos s = [Samples.bitcoin] /\ v_list (render s) = None.
Proof.
  assert (Hp : (2 <= pending (run mounted [Fetch]))%nat) by (simpl; lia).
  pose proof (success_after_failure_stays_hidden (run mounted [Fetch])
                [Samples.bitcoin] Hp) as H.
  split; [exact (proj1 H) | exact (proj1 (proj2 (proj2 (proj2 (proj2 H)))))].
Defined.

(** X9: refreshes and keystrokes never touch the selection: the coin the
    modal shows is the object of the card that was clicked, also after
    any number of later refreshes have replaced the list. *)
Theorem selection_is_a_snapshot (s : state) (es : list event) :
  Forall list_side es ->
  selected (run s es) = selected s /\
  modal (run s es) = modal s /\
  v_modal (render (run s es)) = v_modal (render s).
Proof.
  intros H; revert s; induction H as [|e es He _ IH]; intros s;
    [repeat split|].
  cbn [run fold_left]; fold (run (step s e) es).
  destruct (IH (step s e)) as (A & B & C); cbn [render v_modal] in *.
  assert (E : selected (step s e) = selected s /\ modal (step s e) = modal s).
  { destruct e as [|o|t|c| |e]; cbn in He; try contradiction; cbn;
      try (split; reflexivity).
    destruct (pending s); [split; reflexivity|].
    destruct o; split; reflexivity. }
  destruct E as [E1 E2]; rewrite A, B, E1, E2; repeat split.
Qed.

(** The theorem with bitcoin selected and a refresh that brings another
    list. *)
Lemma selection_is_a_snapshot_witness :
  let s := run mounted [Settle (Loaded [Samples.bitcoin]);
                        Select Samples.bitcoin] in
  selected (run s [Fetch; Settle (Loaded [Samples.ethereum])])
  = Some Samples.bitcoin.
Proof.
  intros s.
  refine (proj1 (selection_is_a_snapshot s
            [Fetch; Settle (Loaded [Samples.ethereum])] _)).
  repeat constructor.
Defined.

End AppInvariants.

(* ------------------------------------------------------------------ *)
(** ** The search term *)

Module SearchFacts.

Import Text Value Coin App AppFacts.
Local Open Scope string_scope.

Lemma lower_upper_char (c : ascii) : lower_char (upper_char c) = lower_char c.
Proof. destruct c as [[] [] [] [] [] [] [] []]; reflexivity. Qed.

Lemma lower_upper (s : string) : toLowerCase (toUpperCase s) = toLowerCase s.
Proof.
  induction s as [|c s IH]; cbn [toUpperCase toLowerCase]; [reflexivity|].
  now rewrite lower_upper_char, IH.
Qed.

Lemma lower_idem_char (c : ascii) : lower_char (lower_char c) = lower_char c.
Proof. destruct c as [[] [] [] [] [] [] [] []]; reflexivity. Qed.

Lemma lower_idem (s : string) : toLowerCase (toLowerCase s) = toLowerCase s.
Proof.
  induction s as [|c s IH]; cbn [toLowerCase]; [reflexivity|].
  now rewrite lower_idem_char, IH.
Qed.

Lemma lower_app (s t : string) :
  toLowerCase (s ++ t) = toLowerCase s ++ toLowerCase t.
Proof.
  induction s as [|c s IH]; cbn [append toLowerCase]; [reflexivity|].
  now rewrite IH.
Qed.

Lemma append_empty (s : string) : s ++ "" = s.
Proof. induction s as [|c s IH]; cbn [append]; [reflexivity | now rewrite IH]. Qed.

Lemma append_assoc (a b c : string) : (a ++ b) ++ c = a ++ b ++ c.
Proof. induction a as [|x a IH]; cbn [append]; [reflexivity | now rewrite IH]. Qed.

Lemma includes_self (s : string) : includes s s = true.
Proof.
  apply includes_spec; exists "", ""; cbn [append]; now rewrite append_empty.
Qed.

Lemma contains_trans (s t u : string) :
  contains s t -> contains t u -> contains s u.
Proof.
  intros (a & b & ->) (a' & b' & ->).
  exists (a ++ a'), (b' ++ b); now rewrite !append_assoc.
Qed.

(** X10: on ASCII text the search does not depend on the case of the
    term, and typing the symbol of a coin as its card shows it, in
    capitals, keeps that coin in the filtered list when the symbol is
    ASCII text; typing the name as the card shows it always does. *)
Theorem search_finds_what_cards_show (l : list coin) (c : coin) (t : string) :
  (ascii_only t ->
   searchFilter (toUpperCase t) l = searchFilter t l /\
   searchFilter (toLowerCase t) l = searchFilter t l) /\
  (ascii_only (symbol c) -> In c l ->
   In c (searchFilter (toUpperCase (symbol c)) l)) /\
  (In c l -> In c (searchFilter (name c) l)).
Proof.
  unfold searchFilter; rewrite !lower_upper, lower_idem.
  split; [intros _; split; reflexivity|].
  split; [intros _ Hc | intros Hc]; apply filter_In;
    (split; [exact Hc|]); unfold matches.
  - rewrite includes_self; apply orb_true_r.
  - rewrite includes_self; reflexivity.
Qed.

(** The theorem for bitcoin and its symbol as the card prints it, and for
    a term in capitals. *)
Lemma search_finds_what_cards_show_witness :
  In Samples.bitcoin
     (searchFilter "BTC" [Samples.bitcoin; Samples.ethereum]) /\
  searchFilter "ETH" [Samples.bitcoin; Samples.ethereum]
  = searchFilter "eth" [Samples.bitcoin; Samples.ethereum].
Proof.
  pose proof (search_finds_what_cards_show
                [Samples.bitcoin; Samples.ethereum] Samples.bitcoin "eth")
    as (Hcase & Hsym & _).
  split.
  - apply Hsym; [reflexivity | left; reflexivity].
  - exact (proj1 (Hcase eq_refl)).
Defined.

Lemma filter_narrow {A : Type} (f g : A -> bool) (l : list A) :
  (forall a, f a = true -> g a = true) ->
  filter f (filter g l) = filter f l.
Proof.
  intros H; induction l as [|a l IH]; cbn [filter]; [reflexivity|].
  destruct (g a) eqn:G; cbn [filter]; [now rewrite IH|].
  destruct (f a) eqn:F; [|exact IH].
  rewrite (H a F) in G; discriminate.
Qed.

(** X11: a longer term never shows more.  When the term [t] occurs in
    the term [t'] (characters were typed before or after it) and [t'] is
    ASCII text, the coins kept for [t'] are a subsequence of those kept
    for [t], and filtering the list already filtered for [t] gives the
    same as filtering the whole list. *)
Theorem longer_term_narrows (l : list coin) (a t b : string) :
  let t' := a ++ t ++ b in
  ascii_only t' ->
  searchFilter t' l = searchFilter t' (searchFilter t l) /\
  subseq (searchFilter t' l) (searchFilter t l) /\
  (List.length (searchFilter t' l) <= List.length (searchFilter t l))%nat.
Proof.
  intros t' _.
  assert (Hm : forall c, matches (toLowerCase t') c = true ->
                         matches (toLowerCase t) c = true).
  { intros c; unfold matches; rewrite !orb_true_iff, !includes_spec.
    assert (Hc : contains (toLowerCase t') (toLowerCase t)).
    { unfold t'; rewrite !lower_app.
      now exists (toLowerCase a), (toLowerCase b). }
    intros [H|H]; [left | right]; exact (contains_trans _ _ _ H Hc). }
  assert (E : searchFilter t' l = searchFilter t' (searchFilter t l)).
  { unfold searchFilter; symmetry; apply filter_narrow, Hm. }
  split; [exact E|].
  assert (S : subseq (searchFilter t' l) (searchFilter t l)).
  { rewrite E; unfold searchFilter at 1; apply filter_subseq. }
  split; [exact S|].
  clear E; induction S; cbn [List.length]; lia.
Qed.

(** The theorem for the term "t" extended to "bTc". *)
Lemma longer_term_narrows_witness :
  subseq (searchFilter "bTc" [Samples.bitcoin; Samples.ethereum])
         (searchFilter "T" [Samples.bitcoin; Samples.ethereum]).
Proof.
  exact (proj1 (proj2 (longer_term_narrows
                         [Samples.bitcoin; Samples.ethereum] "b" "T" "c"
                         eq_refl))).
Defined.

(** X12: the clear button is there exactly when the bar holds some text;
    pressing it empties the term, which brings back the whole loaded
    list in its order and removes the button and the hint; a keystroke
    is echoed by the input. *)
Theorem clear_restores_list (s : state) (v : string) :
  (SearchBar.clearButton (SearchBar.SearchBar v) = true <-> v <> "") /\
  SearchBar.hint (SearchBar.SearchBar v)
    = SearchBar.clearButton (SearchBar.SearchBar v) /\
  (let s' := step s (Type_ (SearchBar.onChange SearchBar.Clear)) in
   search s' = "" /\ filtered s' = cryptos s /\
   SearchBar.clearButton (SearchBar.SearchBar (search s')) = false) /\
  (let s' := step s (Type_ (SearchBar.onChange (SearchBar.Input v))) in
   SearchBar.input (SearchBar.SearchBar (search s')) = v /\
   filtered s' = searchFilter v (cryptos s)).
Proof.
  split; [|split; [reflexivity|split]].
  - cbn; destruct (String.eqb_spec v ""); split; intros H;
      solve [congruence | discriminate | reflexivity].
  - cbn; repeat split.
    apply filter_all; intros c; unfold matches; cbn.
    now rewrite includes_empty.
  - cbn; split; reflexivity.
Qed.

End SearchFacts.

(* ------------------------------------------------------------------ *)
(** ** The cards of the list *)

Module ListFacts.

Import Text Value Coin App CryptoList.
Local Open Scope string_scope.

Lemma mapi_from_map {A B C : Type} (g : B -> C) (f : A -> nat -> B)
  (l : list A) (k : nat) :
  map g (CryptoModal.mapi_from k f l)
  = CryptoModal.mapi_from k (fun a i => g (f a i)) l.
Proof.
  revert k; induction l as [|a l IH]; intros k;
    cbn [CryptoModal.mapi_from map]; [reflexivity | now rewrite IH].
Qed.

Lemma mapi_from_const {A B : Type} (f : A -> B) (l : list A) (k : nat) :
  CryptoModal.mapi_from k (fun a _ => f a) l = map f l.
Proof.
  revert k; induction l as [|a l IH]; intros k;
    cbn [CryptoModal.mapi_from map]; [reflexivity | now rewrite IH].
Qed.

Lemma mapi_from_index {A : Type} (l : list A) (k : nat) :
  CryptoModal.mapi_from k (fun _ i => (i + 1)%nat) l
  = seq (k + 1) (List.length l).
Proof.
  revert k; induction l as [|a l IH]; intros k;
    cbn [CryptoModal.mapi_from seq List.length]; [reflexivity|].
  now rewrite IH, Nat.add_succ_l.
Qed.

(** X13: the list shows the empty state exactly when it is given no coin;
    otherwise it shows one card per coin, in the order given, ranked 1,
    2, 3, ... by position, and each card's click hands its own coin to
    [onSelect].  Put behind the application's render: the [i]-th card
    carries rank [i + 1], its position in the filtered list, and
    clicking it selects the [i]-th coin of that list. *)
Theorem cards_ranked_by_position (l : list coin) :
  (CryptoList l = EmptyState <-> l = []) /\
  (l <> [] ->
   exists cards,
     CryptoList l = Cards cards /\
     map c_coin cards = l /\ map onClick cards = l /\
     map key cards = map id l /\
     map c_rank cards = seq 1 (List.length l)) /\
  (forall (s : state) cards i k,
      v_list (render s) = Some l -> CryptoList l = Cards cards ->
      nth_error cards i = Some k ->
      c_rank k = (i + 1)%nat /\
      nth_error (filtered s) i = Some (onClick k) /\
      selected (step s (Select (onClick k))) = nth_error (filtered s) i).
Proof.
  assert (Hc : l <> [] ->
           CryptoList l
           = Cards (CryptoModal.mapi
                      (fun coin index =>
                         {| key := id coin; c_coin := coin;
                            c_rank := index + 1; onClick := coin |}) l)).
  { unfold CryptoList; destruct l; [congruence | reflexivity]. }
  split; [|split].
  - unfold CryptoList; destruct l; cbn; split; intros H;
      solve [reflexivity | discriminate].
  - intros Hne; eexists; split; [apply Hc, Hne|].
    unfold CryptoModal.mapi; rewrite !mapi_from_map; cbn [c_coin onClick key c_rank].
    rewrite !mapi_from_const, map_id, mapi_from_index; repeat split.
  - intros s cards i k Hv Hl Hk.
    assert (Hf : filtered s = l).
    { cbn in Hv. destruct (negb (loading s) && negb (shown (error s)));
        congruence. }
    assert (Hne : l <> [])
      by (intros E; rewrite E in Hl; discriminate).
    rewrite (Hc Hne) in Hl; injection Hl as <-.
    unfold CryptoModal.mapi in Hk.
    rewrite HoverFacts.mapi_from_nth in Hk.
    destruct (nth_error l i) as [c|] eqn:E; [|discriminate].
    cbn in Hk; injection Hk as <-; cbn; rewrite Hf; auto.
Qed.

End ListFacts.

(* ------------------------------------------------------------------ *)
(** ** Printed counts *)

Module CountFacts.

Import Text TextFacts.
Local Open Scope string_scope.

Lemma of_count_read (n : nat) :
  n <> 0%nat -> read_count (of_count n) = Some (N.of_nat n).
Proof.
  intros Hn; unfold read_count, of_count, text, digits, chars.
  rewrite string_of_list_ascii_of_string.
  unfold NilZero.string_of_uint.
  assert (Hd : N.to_uint (N.of_nat n) <> Decimal.Nil).
  { destruct (N.of_nat n) eqn:E; [lia|]. apply DecimalPos.Unsigned.to_uint_nonnil. }
  destruct (N.to_uint (N.of_nat n)) eqn:E; try congruence;
    rewrite NilEmpty.usu; cbn [option_map]; rewrite <- E;
    now rewrite DecimalN.Unsigned.of_to.
Qed.

Lemma of_lu_upper (d : Decimal.uint) :
  (DecimalPos.Unsigned.of_lu d < 10 ^ DecimalPos.Unsigned.usize d)%N.
Proof.
  induction d; cbn [DecimalPos.Unsigned.of_lu DecimalPos.Unsigned.usize];
    rewrite ?N.pow_succ_r'; lia.
Qed.

Lemma digits_upper_bound (n : N) :
  (n < 10 ^ N.of_nat (List.length (digits n)))%N.
Proof.
  pose proof (DecimalN.Unsigned.of_to n) as Hof.
  unfold N.of_uint in Hof; rewrite DecimalPos.Unsigned.of_uint_alt in Hof.
  pose proof (of_lu_upper (Decimal.rev (N.to_uint n))) as Hu.
  rewrite Hof, usize_nb, DecimalFacts.nb_digits_rev in Hu.
  unfold digits, NilZero.string_of_uint.
  destruct (N.to_uint n) eqn:E;
    try (rewrite length_string_of_uint; exact Hu).
  cbn in Hu |- *; lia.
Qed.

Lemma of_count_length (n : nat) :
  (10 <= n)%nat -> (2 <= String.length (of_count n))%nat.
Proof.
  intros Hn; unfold of_count, text.
  assert (E : forall l, String.length (string_of_list_ascii l) = List.length l).
  { induction l as [|c l IH]; cbn; [reflexivity | now rewrite IH]. }
  rewrite E.
  pose proof (digits_upper_bound (N.of_nat n)) as Hu.
  destruct (List.length (digits (N.of_nat n))) as [|[|k]]; cbn in Hu; lia.
Qed.

(** X14: the ASSETS figure of the header and the rank of a card are
    printed the same way: at least two characters, a single digit
    getting a leading zero; the text reads back as the number, so two
    different counts never print alike. *)
Theorem padded_count_reads_back (n m : nat) :
  Header.totalText n = CryptoCard.rankText n /\
  (2 <= String.length (Header.totalText n))%nat /\
  read_count (Header.totalText n) = Some (N.of_nat n) /\
  (Header.totalText n = Header.totalText m -> n = m) /\
  ((n < 10)%nat -> Header.totalText n = "0" ++ of_count n) /\
  ((10 <= n)%nat -> Header.totalText n = of_count n).
Proof.
  assert (Hr : forall k, read_count (Header.totalText k) = Some (N.of_nat k)).
  { intros k; unfold Header.totalText.
    destruct (Nat.ltb_spec k 10) as [H|H].
    - do 10 (destruct k as [|k]; [reflexivity|]); lia.
    - apply of_count_read; lia. }
  split; [reflexivity|]. split; [|split; [apply Hr|split; [|split]]].
  - unfold Header.totalText; destruct (Nat.ltb_spec n 10) as [H|H].
    + do 10 (destruct n as [|n]; [cbn; lia|]); lia.
    + now apply of_count_length.
  - intros E; pose proof (Hr n) as Hn; rewrite E, Hr in Hn.
    injection Hn as Hn; lia.
  - unfold Header.totalText; intros H.
    destruct (Nat.ltb_spec n 10); [reflexivity | lia].
  - unfold Header.totalText; intros H.
    destruct (Nat.ltb_spec n 10); [lia | reflexivity].
Qed.

End CountFacts.

(* ------------------------------------------------------------------ *)
(** ** The figures of a card *)

Module CardFacts.

Import Number Text Value CryptoCard NumberFacts TextFacts FormatFacts.
Local Open Scope string_scope.

Lemma geb_Fin (x y : Qc) : (y <= x)%Qc -> (Fin x >=? Fin y)%num = true.
Proof.
  intros H; unfold geb, ltb, eqb.
  destruct (Qcle_lt_or_eq _ _ H) as [Hlt | ->].
  - apply Qc_ltb_spec in Hlt; rewrite Hlt; reflexivity.
  - unfold Qc_eq_bool; destruct (Qc_eq_dec x x); [apply orb_true_r | congruence].
Qed.

Lemma geb_Fin_false (x y : Qc) : (x < y)%Qc -> (Fin x >=? Fin y)%num = false.
Proof.
  intros H; unfold geb, ltb, eqb.
  assert (E1 : Qc_ltb y x = false)
    by (apply Qc_ltb_false; now apply Qclt_le_weak).
  assert (E2 : Qc_eq_bool x y = false).
  { unfold Qc_eq_bool; destruct (Qc_eq_dec x y) as [E|_]; [|reflexivity].
    exfalso; exact (Qclt_not_eq _ _ H E). }
  rewrite E1, E2; reflexivity.
Qed.

(** A negative number prints as the minus and its opposite. *)
Lemma toFixedQ_negative (x : Qc) (f : nat) :
  (x < 0)%Qc -> toFixedQ x f = "-" ++ toFixedQ (- x) f.
Proof.
  intros H; unfold toFixedQ.
  assert (E1 : Qc_ltb x 0%Qc = true) by (now apply Qc_ltb_spec).
  assert (E2 : Qc_ltb (- x) 0%Qc = false).
  { apply Qc_ltb_false; apply Qclt_le_weak in H.
    apply Qcopp_le_compat in H.
    replace (- 0)%Qc with 0%Qc in H by ring. exact H. }
  rewrite E1, E2; reflexivity.
Qed.

Lemma falsy_Fin (x : Qc) : x <> 0%Qc -> falsy (Num (Fin x)) = false.
Proof.
  intros H; cbn; apply Qc_is0_false in H; rewrite H; reflexivity.
Qed.

(** X15: the 24h change of a card is the long dash, in the negative class,
    when the figure is missing, null, [NaN] or zero; a positive figure
    prints with a leading plus in the positive class, a negative one
    with its minus in the negative class, also when it rounds to 0.00:
    the text starts with a plus exactly when the class is positive. *)
Theorem change_sign_and_class (v : value) (x : Qc) :
  (falsy v = true ->
   CryptoCard.changeText v = dash /\
   CryptoCard.changeClass v = "card-change negative") /\
  (v = Num (Fin x) -> (0 < x)%Qc ->
   CryptoCard.changeText v = "+" ++ toFixedQ x 2 ++ "%" /\
   CryptoCard.changeClass v = "card-change positive") /\
  (v = Num (Fin x) -> (x < 0)%Qc ->
   CryptoCard.changeText v = "-" ++ toFixedQ (- x) 2 ++ "%" /\
   CryptoCard.changeClass v = "card-change negative").
Proof.
  unfold CryptoCard.changeText, CryptoCard.changeClass, CryptoCard.isPositive.
  split; [|split].
  - intros H; rewrite H; split; [reflexivity|].
    destruct v as [| |[|[|]|q]]; try reflexivity; try discriminate.
    cbn [to_num gtb ltb of_Z].
    assert (E : q = 0%Qc).
    { cbn in H. destruct (Qc_is0 q) eqn:E; [now apply Qc_is0_spec | discriminate]. }
    subst q; reflexivity.
  - intros -> Hx.
    rewrite falsy_Fin by (intros E; rewrite E in Hx; discriminate).
    cbn [to_num gtb ltb of_Z toFixed].
    change (Q2Qc (inject_Z 0)) with 0%Qc.
    apply Qc_ltb_spec in Hx; rewrite Hx; split; reflexivity.
  - intros -> Hx.
    rewrite falsy_Fin by (intros E; rewrite E in Hx; discriminate).
    cbn [to_num gtb ltb of_Z toFixed].
    change (Q2Qc (inject_Z 0)) with 0%Qc.
    rewrite (toFixedQ_negative x 2 Hx).
    apply Qclt_le_weak, Qc_ltb_false in Hx; rewrite Hx; split; reflexivity.
Qed.

(** The theorem on a change of -0.001 percent. *)
Lemma change_sign_and_class_witness :
  CryptoCard.changeText (Value.of_Q (-1 # 1000)) = "-0.00%" /\
  CryptoCard.changeClass (Value.of_Q (-1 # 1000)) = "card-change negative".
Proof.
  refine (proj2 (proj2 (change_sign_and_class (Value.of_Q (-1 # 1000))
                          (Q2Qc (-1 # 1000)))) eq_refl _).
  reflexivity.
Defined.

Lemma scaled (x u : Qc) :
  u <> 0%Qc -> (Fin x / Fin u)%num = Fin (x / u)%Qc.
Proof. intros H; cbn [div]; apply Qc_is0_false in H; now rewrite H. Qed.

Lemma thousand_of (x u : Qc) :
  (0 < u)%Qc ->
  (Q2Qc (999995 # 1000) * u <= x)%Qc -> (x < Q2Qc 1000 * u)%Qc ->
  toFixedQ (x / u) 2 = "1000.00".
Proof.
  intros Hu H1 H2.
  assert (Hi : (0 < / u)%Q) by (apply Qinv_lt_0_compat; exact Hu).
  assert (Hm : (u * / u == 1)%Q).
  { apply Qmult_inv_r; intros E; Qc_to_Q; rewrite E in Hu; lra. }
  assert (A : (Q2Qc (999995 # 1000) <= x / u)%Qc) by (Qc_to_Q; nra).
  assert (B : (x / u < Q2Qc 1000)%Qc) by (Qc_to_Q; nra).
  assert (C : (1 <= x / u)%Qc)
    by (apply Qcle_trans with (Q2Qc (999995 # 1000)); [discriminate | exact A]).
  unfold toFixedQ; rewrite (Qc_ltb_0_false _ C), (round_at _ A B).
  reflexivity.
Qed.

(** X17: just below a threshold the figure rounds past it without changing
    letter: every number from 999,995 up to a million prints as
    $1000.00K, every number from 999,995,000 up to a billion as
    $1000.00M, and every number from 999,995,000,000 up to a trillion as
    $1000.00B. *)
Theorem formatLargeNumber_rounds_past_threshold (x : Qc) :
  ((Q2Qc 999995 <= x)%Qc -> (x < mega)%Qc ->
   CryptoCard.formatLargeNumber (Num (Fin x)) = "$1000.00K") /\
  ((Q2Qc 999995000 <= x)%Qc -> (x < giga)%Qc ->
   CryptoCard.formatLargeNumber (Num (Fin x)) = "$1000.00M") /\
  ((Q2Qc 999995000000 <= x)%Qc -> (x < tera)%Qc ->
   CryptoCard.formatLargeNumber (Num (Fin x)) = "$1000.00B").
Proof.
  assert (Hnz : forall a : Qc, (0 < a)%Qc -> (a <= x)%Qc -> x <> 0%Qc).
  { intros a Ha Hx E; subst x; exact (Qclt_not_le _ _ Ha Hx). }
  assert (Hkm : (kilo < mega)%Qc) by reflexivity.
  assert (Hmg : (mega < giga)%Qc) by reflexivity.
  assert (Hgt : (giga < tera)%Qc) by reflexivity.
  unfold CryptoCard.formatLargeNumber, to_num, of_Z.
  change (Q2Qc (inject_Z 1000)) with kilo.
  change (Q2Qc (inject_Z 1000000)) with mega.
  change (Q2Qc (inject_Z 1000000000)) with giga.
  change (Q2Qc (inject_Z 1000000000000)) with tera.
  rewrite !scaled by discriminate; cbn [toFixed].
  split; [|split]; intros H1 H2.
  - rewrite (falsy_Fin x (Hnz (Q2Qc 999995) eq_refl H1)).
    assert (H3 : (x < giga)%Qc) by (eapply Qclt_trans; eassumption).
    assert (H4 : (x < tera)%Qc) by (eapply Qclt_trans; eassumption).
    assert (H0 : (kilo <= x)%Qc)
      by (apply Qcle_trans with (Q2Qc 999995); [discriminate | exact H1]).
    rewrite (geb_Fin_false _ _ H4), (geb_Fin_false _ _ H3),
      (geb_Fin_false _ _ H2), (geb_Fin _ _ H0).
    rewrite (thousand_of x kilo); [reflexivity | reflexivity | |].
    + replace (Q2Qc (999995 # 1000) * kilo)%Qc with (Q2Qc 999995)
        by (apply Qc_is_canon; reflexivity). exact H1.
    + replace (Q2Qc 1000 * kilo)%Qc with mega
        by (apply Qc_is_canon; reflexivity). exact H2.
  - rewrite (falsy_Fin x (Hnz (Q2Qc 999995000) eq_refl H1)).
    assert (H4 : (x < tera)%Qc) by (eapply Qclt_trans; eassumption).
    assert (H0 : (mega <= x)%Qc)
      by (apply Qcle_trans with (Q2Qc 999995000); [discriminate | exact H1]).
    rewrite (geb_Fin_false _ _ H4), (geb_Fin_false _ _ H2), (geb_Fin _ _ H0).
    rewrite (thousand_of x mega); [reflexivity | reflexivity | |].
    + replace (Q2Qc (999995 # 1000) * mega)%Qc with (Q2Qc 999995000)
        by (apply Qc_is_canon; reflexivity). exact H1.
    + replace (Q2Qc 1000 * mega)%Qc with giga
        by (apply Qc_is_canon; reflexivity). exact H2.
  - rewrite (falsy_Fin x (Hnz (Q2Qc 999995000000) eq_refl H1)).
    assert (H0 : (giga <= x)%Qc)
      by (apply Qcle_trans with (Q2Qc 999995000000); [discriminate | exact H1]).
    rewrite (geb_Fin_false _ _ H2), (geb_Fin _ _ H0).
    rewrite (thousand_of x giga); [reflexivity | reflexivity | |].
    + replace (Q2Qc (999995 # 1000) * giga)%Qc with (Q2Qc 999995000000)
        by (apply Qc_is_canon; reflexivity). exact H1.
    + replace (Q2Qc 1000 * giga)%Qc with tera
        by (apply Qc_is_canon; reflexivity). exact H2.
Qed.

(** The theorem on 999,999. *)
Lemma formatLargeNumber_rounds_past_threshold_witness :
  CryptoCard.formatLargeNumber (Value.of_Q (999999 # 1)) = "$1000.00K".
Proof.
  refine (proj1 (formatLargeNumber_rounds_past_threshold (Q2Qc (999999 # 1)))
            _ _).
  - vm_compute; discriminate.
  - reflexivity.
Defined.

End CardFacts.

(* ------------------------------------------------------------------ *)
(** ** The modal over its lifetime *)

Module ModalLifecycle.

Import Number Value Coin CryptoModal.

Lemma run_snoc (s : state) (es : list event) (e : event) :
  run s (es ++ [e]) = step (run s es) e.
Proof. unfold run; rewrite fold_left_app; reflexivity. Qed.

Lemma step_idle (s : state) (e : event) :
  (inflight s = [] -> loadingChart s = false) ->
  inflight (step s e) = [] -> loadingChart (step s e) = false.
Proof.
  intros H; destruct e as [d|c|i o|i|]; cbn.
  - destruct (Z.eqb d (days s)); cbn; [exact H|].
    intros E; destruct (inflight s); discriminate.
  - destruct (String.eqb (id c) (id (coin s))); cbn; [exact H|].
    intros E; destruct (inflight s); discriminate.
  - destruct (nth_error (inflight s) i); [|exact H].
    destruct o; reflexivity.
  - destruct (chart s) as [f|]; [|exact H].
    destruct (nth_error (f_hoverRects f) i); exact H.
  - destruct (chart s); exact H.
Qed.

(** X18: whatever happens in the modal after it opened, once no chart
    fetch is in flight any more the loading line is gone, also when the
    fetches failed; it shows only while some fetch is still to
    settle. *)
Theorem loading_ends_with_fetches (c : Coin.coin) (es : list event) :
  let s := run (mount c) es in
  (inflight s = [] -> loadingChart s = false) /\
  (loadingChart s = true -> inflight s <> []).
Proof.
  assert (H : inflight (run (mount c) es) = [] ->
              loadingChart (run (mount c) es) = false).
  { induction es as [|e es IH] using rev_ind; [discriminate|].
    rewrite run_snoc; apply step_idle, IH. }
  split; [exact H|].
  intros Hl E; rewrite (H E) in Hl; discriminate.
Qed.

(** X19: while the chart is shown, the pointer entering the rectangle of
    the [i]-th sample stores that sample, its date and price, with the
    coordinates the chart gives it, and changes nothing else; while the
    loading line is shown, or for an index the series does not have,
    the event changes nothing at all. *)
Theorem pointer_entry_stores_sample (s : state) (i : nat) :
  (forall d, loadingChart s = false -> nth_error (chartData s) i = Some d ->
     step s (MouseEnter i)
     = set_hovered
         (Some {| h_date := date d; h_price := price d;
                  h_x := scaleX (chartData s) i;
                  h_y := scaleY (chartData s) (Fin (price d)) |}) s) /\
  (loadingChart s = true \/ nth_error (chartData s) i = None ->
   step s (MouseEnter i) = s).
Proof.
  split.
  - intros d Hl Hd; cbn [step]; unfold chart, renderChart; rewrite Hl.
    destruct (chartData s) as [|d0 cd] eqn:E; [destruct i; discriminate|].
    cbn [List.length Nat.eqb f_hoverRects].
    unfold hoverRects, mapi; rewrite HoverFacts.mapi_from_nth, Hd.
    reflexivity.
  - intros [Hl|Hn]; cbn [step]; unfold chart, renderChart.
    + rewrite Hl; reflexivity.
    + destruct (loadingChart s); [reflexivity|].
      destruct (chartData s) as [|d0 cd] eqn:E; [reflexivity|].
      cbn [List.length Nat.eqb f_hoverRects].
      unfold hoverRects, mapi; rewrite HoverFacts.mapi_from_nth, Hn.
      reflexivity.
Qed.

(** The theorem with the 7-day series shown and the second sample
    entered. *)
Lemma pointer_entry_stores_sample_witness :
  let s := run (mount Samples.bitcoin) [Settle 0 (Prices Samples.week)] in
  option_map h_date (hovered (step s (MouseEnter 1))) = Some 2.
Proof.
  intros s.
  rewrite (proj1 (pointer_entry_stores_sample s 1)
             (Samples.sample 2 200 1) eq_refl eq_refl).
  reflexivity.
Defined.

End ModalLifecycle.

Module ModalInApp.

Import Number Value Coin App.

Lemma modal_step_coin (m : CryptoModal.state) (e : CryptoModal.event) :
  match e with CryptoModal.CoinProp _ => False | _ => True end ->
  CryptoModal.coin (CryptoModal.step m e) = CryptoModal.coin m.
Proof.
  destruct e as [d|c|i o|i|]; cbn; intros H; try contradiction.
  - destruct (Z.eqb d (CryptoModal.days m)); reflexivity.
  - destruct (nth_error (CryptoModal.inflight m) i); [|reflexivity].
    destruct o; reflexivity.
  - destruct (CryptoModal.chart m) as [f|]; [|reflexivity].
    destruct (nth_error (CryptoModal.f_hoverRects f) i); reflexivity.
  - destruct (CryptoModal.chart m); reflexivity.
Qed.

Lemma step_shows_selected (s : state) (e : event) :
  prop_by_click e ->
  option_map CryptoModal.coin (modal s) = selected s ->
  option_map CryptoModal.coin (modal (step s e)) = selected (step s e).
Proof.
  intros He H; destruct e as [|o|t|c| |e]; cbn; try exact H;
    try reflexivity.
  - destruct (pending s); [exact H|]. destruct o; exact H.
  - destruct (modal s) as [m|]; cbn; [|reflexivity].
    destruct (String.eqb (id c) (id (CryptoModal.coin m))); reflexivity.
  - rewrite <- H; destruct (modal s) as [m|]; cbn; [|reflexivity].
    f_equal; apply modal_step_coin.
    destruct e; solve [exact I | exact He].
Qed.

(** X23: the modal is mounted exactly while a coin is selected, and the
    coin it renders is the selected one, in every state the application
    reaches from its mount, whatever happens in between (refreshes,
    typing, clicks on cards, closing, clicks and fetches inside the
    modal). *)
Theorem modal_shows_selected (es : list event) :
  Forall prop_by_click es ->
  option_map CryptoModal.coin (modal (run mounted es))
  = selected (run mounted es) /\
  v_modal (render (run mounted es)) = selected (run mounted es).
Proof.
  intros H; split; [|reflexivity].
  assert (G : forall s0,
             option_map CryptoModal.coin (modal s0) = selected s0 ->
             option_map CryptoModal.coin (modal (run s0 es))
             = selected (run s0 es)).
  { induction H as [|e es He _ IH]; intros s0 H0; [exact H0|].
    cbn [run fold_left]; fold (run (step s0 e) es).
    apply IH, step_shows_selected; assumption. }
  apply G; reflexivity.
Qed.

Lemma modal_shows_selected_witness :
  option_map CryptoModal.coin
    (modal (run mounted
              [Select Samples.bitcoin;
               Modal (CryptoModal.ClickPeriod 30);
               Select Samples.ethereum;
               Modal (CryptoModal.Settle 0 CryptoModal.Thrown)]))
  = Some Samples.ethereum.
Proof.
  apply (proj1 (modal_shows_selected
                  [Select Samples.bitcoin;
                   Modal (CryptoModal.ClickPeriod 30);
                   Select Samples.ethereum;
                   Modal (CryptoModal.Settle 0 CryptoModal.Thrown)]
                  ltac:(repeat constructor))).
Defined.

Lemma run_closed (s : state) (es : list event) :
  Forall not_select es -> modal s = None -> selected s = None ->
  modal (run s es) = None /\ selected (run s es) = None.
Proof.
  intros H; revert s; induction H as [|e es He _ IH]; intros s Hm Hs;
    [now split|].
  cbn [run fold_left]; fold (run (step s e) es).
  apply IH; destruct e as [|o|t|c| |e]; cbn; try contradiction;
    rewrite ?Hm; try assumption; try reflexivity;
    (destruct (pending s); [assumption|]; destruct o; assumption).
Qed.

(** X20: closing the modal drops its whole state.  Whatever comes after
    the closing short of a click on a card (a chart fetch settling late,
    refreshes, typing), no modal is mounted and no coin is selected;
    the next click on a card mounts a new modal for that coin: at the
    7-day period, without series or hover, loading, with exactly one
    fetch in flight, for that coin and 7 days. *)
Theorem reopened_modal_is_new (s : state) (es : list event) (c : coin) :
  Forall not_select es ->
  let closed := run (step s Close) es in
  let opened := step closed (Select c) in
  modal closed = None /\ selected closed = None /\
  v_modal (render closed) = None /\
  selected opened = Some c /\
  exists m,
    modal opened = Some m /\
    CryptoModal.coin m = c /\
    CryptoModal.days m = 7%Z /\
    CryptoModal.hovered m = None /\
    CryptoModal.chartData m = [] /\
    CryptoModal.loadingChart m = true /\
    CryptoModal.inflight m
    = [{| CryptoModal.req_id := id c; CryptoModal.req_days := 7 |}].
Proof.
  intros H closed opened.
  destruct (run_closed (step s Close) es H eq_refl eq_refl) as [Hm Hs].
  fold closed in Hm, Hs.
  repeat split; try assumption.
  exists (CryptoModal.mount c); repeat split.
  unfold opened; cbn; rewrite Hm; reflexivity.
Qed.

Lemma reopened_modal_is_new_witness :
  modal (run (step (step mounted (Select Samples.bitcoin)) Close)
           [Modal (CryptoModal.Settle 0 (CryptoModal.Prices Samples.week));
            Fetch; Type_ "e"%string]) = None.
Proof.
  apply (reopened_modal_is_new (step mounted (Select Samples.bitcoin))
           [Modal (CryptoModal.Settle 0 (CryptoModal.Prices Samples.week));
            Fetch; Type_ "e"%string] Samples.ethereum
           ltac:(repeat constructor)).
Defined.

End ModalInApp.

(* ------------------------------------------------------------------ *)
(** ** Reading back what toFixed printed *)

Module ReadBackFacts.

Import Number Text NumberFacts TextFacts.
Local Open Scope string_scope.

Lemma chars_text (l : list ascii) : chars (text l) = l.
Proof. apply list_ascii_of_string_of_list_ascii. Qed.

Lemma chars_app (a b : string) : chars (a ++ b) = (chars a ++ chars b)%list.
Proof.
  induction a as [|c a IH]; cbn [append chars list_ascii_of_string app];
    [reflexivity|].
  unfold chars in IH; now rewrite IH.
Qed.

(** A digit is none of the point, the signs and the letter I. *)
Lemma digit_is_plain (c : ascii) :
  is_digit c = true ->
  Ascii.eqb c "."%char = false /\ Ascii.eqb c "-"%char = false /\
  Ascii.eqb c "+"%char = false /\ Ascii.eqb c "I"%char = false.
Proof.
  destruct c as [[] [] [] [] [] [] [] []]; cbn; intros H;
    try discriminate H; repeat split.
Qed.

Lemma read_shift (l : list ascii) (a b v : N) :
  read_digits_acc a l = Some v ->
  read_digits_acc (a + b) l
  = Some (v + b * 10 ^ N.of_nat (List.length l))%N.
Proof.
  revert a b v; induction l as [|c l IH]; intros a b v; cbn [read_digits_acc].
  - intros E; injection E as <-; cbn; f_equal; lia.
  - destruct (digit_value c) as [k|]; [|discriminate].
    intros E.
    replace (10 * (a + b) + k)%N with ((10 * a + k) + 10 * b)%N by lia.
    rewrite (IH _ (10 * b)%N v E); f_equal.
    cbn [List.length].
    replace (N.of_nat (S (List.length l)))
      with (N.succ (N.of_nat (List.length l))) by lia.
    rewrite N.pow_succ_r'; lia.
Qed.

Lemma read_app (l1 l2 : list ascii) (a b : N) :
  read_digits l1 = Some a -> read_digits l2 = Some b ->
  read_digits (l1 ++ l2)
  = Some (a * 10 ^ N.of_nat (List.length l2) + b)%N.
Proof.
  unfold read_digits; intros H1 H2.
  assert (G : forall l acc v, read_digits_acc acc l = Some v ->
                read_digits_acc acc (l ++ l2)%list = read_digits_acc v l2).
  { induction l as [|c l IH]; intros acc v; cbn [read_digits_acc app].
    - intros E; now injection E as <-.
    - destruct (digit_value c); [apply IH | discriminate]. }
  rewrite (G l1 0%N a H1).
  replace a with (0 + a)%N at 1 by lia.
  rewrite (read_shift l2 0 a b H2); f_equal; lia.
Qed.

Lemma read_zeros (k : nat) : read_digits (repeat "0"%char k) = Some 0%N.
Proof.
  unfold read_digits; induction k as [|k IH]; [reflexivity|].
  cbn [repeat read_digits_acc]; exact IH.
Qed.

Lemma read_all_digits (l : list ascii) :
  all_digits l -> exists v, read_digits l = Some v.
Proof.
  unfold read_digits; generalize 0%N.
  induction l as [|c l IH]; intros acc H; [now exists acc|].
  inversion H as [|? ? Hc Hl]; subst; cbn [read_digits_acc].
  unfold digit_value; rewrite Hc; apply IH, Hl.
Qed.

Lemma read_string_of_uint (d : Decimal.uint) (acc : N) :
  read_digits_acc acc (chars (NilEmpty.string_of_uint d))
  = Some (acc * 10 ^ DecimalPos.Unsigned.usize d
          + DecimalPos.Unsigned.of_lu (Decimal.rev d))%N.
Proof.
  revert acc; induction d; intros acc;
    [cbn; f_equal; lia | ..];
    (unfold Decimal.rev; cbn [Decimal.revapp];
     rewrite DecimalPos.Unsigned.of_lu_revapp;
     cbn [NilEmpty.string_of_uint chars list_ascii_of_string read_digits_acc
          DecimalPos.Unsigned.usize DecimalPos.Unsigned.of_lu];
     unfold chars in IHd;
     match goal with
     | |- context [digit_value ?c] =>
         let k := eval vm_compute in (digit_value c) in
         change (digit_value c) with k
     end;
     cbv beta iota;
     rewrite IHd, N.pow_succ_r'; f_equal; nia).
Qed.

(** The digits of a number read back as the number. *)
Lemma read_digits_of (n : N) : read_digits (digits n) = Some n.
Proof.
  unfold read_digits, digits, NilZero.string_of_uint.
  pose proof (DecimalN.Unsigned.of_to n) as Hof.
  unfold N.of_uint in Hof; rewrite DecimalPos.Unsigned.of_uint_alt in Hof.
  destruct (N.to_uint n) eqn:E;
    try (rewrite read_string_of_uint, Hof; f_equal; lia).
  cbn in Hof; subst n; reflexivity.
Qed.


Lemma split_no_point (l : list ascii) :
  all_digits l -> split_at_point l = (l, None).
Proof.
  induction 1 as [|c l Hc _ IH]; [reflexivity|].
  cbn [split_at_point].
  destruct (digit_is_plain c Hc) as (-> & _); now rewrite IH.
Qed.

Lemma split_one_point (int frac : list ascii) :
  all_digits int ->
  split_at_point (int ++ "."%char :: frac) = (int, Some frac).
Proof.
  induction 1 as [|c l Hc _ IH]; [reflexivity|].
  cbn [split_at_point app].
  destruct (digit_is_plain c Hc) as (-> & _); now rewrite IH.
Qed.

Lemma not_Infinity (c : ascii) (l : list ascii) :
  is_digit c = true -> String.eqb (text (c :: l)) "Infinity" = false.
Proof.
  intros Hc; cbn [text string_of_list_ascii String.eqb].
  destruct (digit_is_plain c Hc) as (_ & _ & _ & ->); reflexivity.
Qed.

(** The parts [split_digits] cuts are the digits with their padding. *)
Lemma split_digits_value (n : N) (f : nat) :
  let (int, frac) := split_digits (digits n) f in
  read_digits (int ++ frac) = Some n.
Proof.
  unfold split_digits.
  set (m := if (List.length (digits n) <=? f)%nat then _ else _).
  rewrite firstn_skipn; subst m.
  destruct (List.length (digits n) <=? f)%nat; [|apply read_digits_of].
  rewrite (read_app _ _ 0 n (read_zeros _) (read_digits_of n)); f_equal; lia.
Qed.

Lemma pow10_pos (k : nat) : (0 < inject_Z (10 ^ Z.of_nat k))%Q.
Proof.
  change 0%Q with (inject_Z 0); rewrite <- Zlt_Qlt.
  apply Z.pow_pos_nonneg; lia.
Qed.

(** The value of the digits [toFixed] writes for [n / 10^f]. *)
Lemma read_place_point (n : N) (f : nat) :
  unsigned_literal (place_point (digits n) f)
  = Fin (Q2Qc (inject_Z (Z.of_N n) / inject_Z (10 ^ Z.of_nat f))).
Proof.
  unfold unsigned_literal, place_point.
  destruct f as [|f].
  - pose proof (digits_all n) as Ha; pose proof (digits_nonempty n) as Hn.
    destruct (digits n) as [|c l] eqn:E; [congruence|].
    inversion Ha as [|? ? Hc Hl]; subst.
    rewrite (not_Infinity c l Hc), (split_no_point _ Ha).
    assert (R : read_digits (c :: l) = Some n)
      by (rewrite <- E; apply read_digits_of).
    rewrite R.
    unfold decimal_value; f_equal; apply Q2Qc_eq_iff.
    change (inject_Z (10 ^ Z.of_nat 0)) with 1%Q; field.
  - pose proof (split_digits_shape (digits n) (S f)) as Hs.
    pose proof (split_digits_value n (S f)) as Hv.
    destruct (split_digits (digits n) (S f)) as [int frac].
    destruct Hs as (Hlen & Hne & _ & Hd).
    destruct (Hd (digits_all n)) as [Hi Hf].
    destruct int as [|c int]; [congruence|].
    inversion Hi as [|? ? Hc Hl]; subst.
    cbn [app]; rewrite (not_Infinity c _ Hc).
    change (c :: (int ++ "."%char :: frac))%list
      with ((c :: int) ++ "."%char :: frac)%list.
    rewrite (split_one_point _ frac Hi).
    destruct (read_all_digits _ Hi) as [a Ea].
    destruct (read_all_digits _ Hf) as [b Eb].
    rewrite Ea, Eb, Hlen.
    rewrite (read_app _ _ a b Ea Eb), Hlen in Hv.
    assert (Hn : (a * 10 ^ N.of_nat (S f) + b)%N = n) by congruence.
    unfold decimal_value; f_equal; apply Q2Qc_eq_iff.
    pose proof (pow10_pos (S f)) as Hp.
    rewrite <- Hn, N2Z.inj_add, N2Z.inj_mul, N2Z.inj_pow, nat_N_Z.
    change (Z.of_N 10) with 10%Z.
    rewrite inject_Z_plus, inject_Z_mult.
    field; lra.
Qed.

(** What [toFixed] prints starts with a digit once the sign is off. *)
Lemma place_point_head (n : N) (f : nat) :
  exists c l, place_point (digits n) f = c :: l /\ is_digit c = true.
Proof.
  unfold place_point; destruct f as [|f].
  - pose proof (digits_all n) as Ha; pose proof (digits_nonempty n) as Hn.
    destruct (digits n) as [|c l]; [congruence|].
    inversion Ha; subst; eauto.
  - pose proof (split_digits_shape (digits n) (S f)) as Hs.
    destruct (split_digits (digits n) (S f)) as [int frac].
    destruct Hs as (_ & Hne & _ & Hd).
    destruct (Hd (digits_all n)) as [Hi _].
    destruct int as [|c int]; [congruence|].
    inversion Hi; subst; cbn [app]; eauto.
Qed.

(** Reading back what [toFixed] printed gives the rounded value. *)
Lemma read_toFixedQ (x : Qc) (f : nat) :
  StringToNumber (toFixedQ x f)
  = let s := Qc_ltb x 0%Qc in
    let v := Q2Qc (inject_Z (Z.of_N
                      (round_half_up (if s then (- x)%Qc else x) f))
                   / inject_Z (10 ^ Z.of_nat f)) in
    Fin (if s then (- v)%Qc else v).
Proof.
  unfold StringToNumber, toFixedQ; cbv zeta.
  rewrite chars_app, chars_text.
  destruct (Qc_ltb x 0%Qc).
  - cbn [chars list_ascii_of_string app Ascii.eqb Bool.eqb].
    cbn; now rewrite read_place_point.
  - cbn [chars list_ascii_of_string app].
    destruct (place_point_head (round_half_up x f) f) as (c & l & E & Hc).
    rewrite <- read_place_point, E.
    destruct (digit_is_plain c Hc) as (_ & -> & -> & _); reflexivity.
Qed.

End ReadBackFacts.

(* ------------------------------------------------------------------ *)
(** ** The period badge of the modal *)

Module PeriodFacts.

Import Number Text Value CryptoModal NumberFacts TextFacts CardFacts
  ReadBackFacts.
Local Open Scope Qc_scope.

(** Two decimals of a value that is not negative round to zero exactly
    below half a hundredth. *)
Lemma rounds_to_zero (y : Qc) :
  0 <= y -> (round_half_up y 2 = 0%N <-> y < Q2Qc (1 # 200)).
Proof.
  unfold Qclt, Qcle; cbn [this Q2Qc]; rewrite Qred_correct.
  change (this 0) with 0%Q; intros H0.
  unfold round_half_up.
  set (z := (y * inject_Z (10 ^ Z.of_nat 2) + (1 # 2))%Q).
  assert (Ez : (z == y * (100 # 1) + (1 # 2))%Q) by reflexivity.
  pose proof (Qfloor_le z) as Hf.
  pose proof (Qlt_floor z) as Hc.
  split; intros H; rewrite ?Qred_correct in *.
  - assert (Hz : (Qfloor z <= 0)%Z) by lia.
    rewrite Zle_Qle in Hz.
    rewrite inject_Z_plus in Hc.
    change (inject_Z 1) with 1%Q in Hc; change (inject_Z 0) with 0%Q in Hz.
    lra.
  - assert (Hz : (Qfloor z < 1)%Z).
    { rewrite Zlt_Qlt; change (inject_Z 1) with 1%Q.
      eapply Qle_lt_trans; [exact Hf | lra]. }
    lia.
Qed.

(** What [toFixed(2)] printed compares above zero exactly from half a
    hundredth on. *)
Lemma reads_positive (y : Qc) :
  gtb (StringToNumber (toFixedQ y 2)) (of_Z 0) = true
  <-> Q2Qc (1 # 200) <= y.
Proof.
  rewrite read_toFixedQ; cbv zeta; unfold gtb, of_Z; cbn [ltb].
  change (Q2Qc (inject_Z 0)) with 0.
  rewrite Qc_ltb_spec.
  destruct (Qc_ltb y 0) eqn:E.
  - apply Qc_ltb_spec in E.
    set (r := round_half_up (- y) 2).
    split; intros H; exfalso.
    + revert H; Qc_to_Q; change (this 0) with 0%Q.
      change (inject_Z (10 ^ Z.of_nat 2)) with (100 # 1)%Q.
      assert (Hr : (0 <= inject_Z (Z.of_N r))%Q)
        by (change 0%Q with (inject_Z 0); rewrite <- Zle_Qle; lia).
      unfold Qdiv; change (/ (100 # 1))%Q with (1 # 100)%Q; lra.
    + revert E H; Qc_to_Q; change (this 0) with 0%Q; lra.
  - apply Qc_ltb_false in E.
    pose proof (rounds_to_zero y E) as Hr.
    set (r := round_half_up y 2) in *.
    split; intros H.
    + apply Qcnot_lt_le; intros Hlt.
      apply Hr in Hlt; rewrite Hlt in H.
      revert H; Qc_to_Q; change (this 0) with 0%Q.
      change (inject_Z (Z.of_N 0)) with 0%Q; unfold Qdiv; lra.
    + assert (Hn : r <> 0%N).
      { intros Er; apply Hr in Er.
        exact (Qclt_not_le _ _ Er H). }
      Qc_to_Q; change (this 0) with 0%Q.
      change (inject_Z (10 ^ Z.of_nat 2)) with (100 # 1)%Q.
      assert (Hp : (1 <= inject_Z (Z.of_N r))%Q)
        by (change 1%Q with (inject_Z 1); rewrite <- Zle_Qle; lia).
      unfold Qdiv; change (/ (100 # 1))%Q with (1 # 100)%Q; lra.
Qed.

(** The change in percent, for prices that are not zero. *)
Lemma periodChange_value (d0 : point) (tl : list point) :
  let cd := d0 :: tl in
  price d0 <> 0 -> price (last cd d0) <> 0 ->
  periodChange cd
  = Some (toFixedQ ((price (last cd d0) - price d0) / price d0
                    * Q2Qc (inject_Z 100)) 2).
Proof.
  intros cd Hf Hl; subst cd; unfold periodChange, firstPrice, lastPrice.
  rewrite (falsy_Fin _ Hf), (falsy_Fin _ Hl).
  cbn [negb andb to_num sub add neg div].
  apply Qc_is0_false in Hf; rewrite Hf.
  reflexivity.
Qed.

Lemma toFixedQ_not_empty (x : Qc) : String.eqb (toFixedQ x 2) "" = false.
Proof.
  destruct (toFixedQ_shape x 2) as (sign & int & frac & E & Hs & Hi & _);
    [discriminate|].
  rewrite E; destruct int as [|c int]; [congruence|].
  destruct Hs as [-> | ->]; reflexivity.
Qed.

(** X21: the period badge is missing for an empty series and when
    the first or the last price is zero; otherwise it is there, and it
    points up exactly when the change in percent is at least 0.005, the
    least value that two decimals do not print as 0.00. *)
Theorem period_badge_threshold (d0 : point) (tl : list point) :
  let cd := d0 :: tl in
  let f := price d0 in
  let l := price (last cd d0) in
  periodBadge [] = None /\
  (f = 0 \/ l = 0 -> periodBadge cd = None) /\
  (f <> 0 -> l <> 0 ->
   periodBadge cd = Some (isUp cd) /\
   (isUp cd = true
    <-> Q2Qc (1 # 200) <= (l - f) / f * Q2Qc (inject_Z 100))).
Proof.
  intros cd f l; split; [reflexivity|]; split.
  - intros H; subst cd f l.
    unfold periodBadge, periodChange, firstPrice, lastPrice.
    cbn [falsy truthy]; rewrite !negb_involutive.
    destruct H as [E | E]; rewrite E; change (Qc_is0 0) with true;
      cbn [negb andb]; rewrite ?andb_false_r; reflexivity.
  - intros Hf Hl.
    pose proof (periodChange_value d0 tl Hf Hl) as E; fold cd f l in E.
    unfold periodBadge, isUp; rewrite E, toFixedQ_not_empty.
    split; [reflexivity | apply reads_positive].
Qed.

(** The theorem on the series 1000000, 1000050, whose change of 0.005
    percent prints as 0.01. *)
Lemma period_badge_threshold_witness :
  periodBadge [Samples.sample 1 1000000 1; Samples.sample 2 1000050 1]
  = Some true.
Proof.
  pose proof (period_badge_threshold (Samples.sample 1 1000000 1)
                [Samples.sample 2 1000050 1]) as (_ & _ & H).
  assert (Hf : Samples.q 1000000 1 <> 0) by (vm_compute; discriminate).
  assert (Hl : Samples.q 1000050 1 <> 0) by (vm_compute; discriminate).
  destruct (H Hf Hl) as [E I].
  rewrite E; apply (f_equal Some), I.
  vm_compute; discriminate.
Defined.

(** X22: when the last price is above the first one by less than a
    twenty-thousandth of it, or equal to it, the line is drawn in the up
    colour while the badge of the same series points down. *)
Theorem small_rise_green_line_down_badge (d0 : point) (tl : list point) :
  let cd := d0 :: tl in
  let f := price d0 in
  let l := price (last cd d0) in
  0 < f -> f <= l -> (l - f) * Q2Qc (inject_Z 20000) < f ->
  lineColor cd = "#00ff88"%string /\ periodBadge cd = Some false.
Proof.
  intros cd f l Hf Hle Hlt; split.
  - unfold lineColor, priceChange, cd; fold cd l f.
    cbn [sub add neg]; unfold of_Z; change (Q2Qc (inject_Z 0)) with 0.
    rewrite geb_Fin; [reflexivity|].
    revert Hle; Qc_to_Q; change (this 0) with 0%Q; lra.
  - assert (Hf0 : f <> 0) by (intros E; rewrite E in Hf; discriminate Hf).
    assert (Hl0 : l <> 0).
    { intros E; rewrite E in Hle.
      exact (Qclt_not_le _ _ Hf Hle). }
    pose proof (periodChange_value d0 tl Hf0 Hl0) as E; fold cd f l in E.
    unfold periodBadge, isUp; rewrite E, toFixedQ_not_empty.
    f_equal; apply not_true_is_false; intros H.
    apply reads_positive in H.
    revert Hf Hlt H; Qc_to_Q; change (this 0) with 0%Q.
    change (inject_Z 100) with (100 # 1)%Q.
    change (inject_Z 20000) with (20000 # 1)%Q.
    intros Hf Hlt H.
    assert (Hi : (0 < / this f)%Q) by (apply Qinv_lt_0_compat; exact Hf).
    assert (Hm : (this f * / this f == 1)%Q) by (apply Qmult_inv_r; lra).
    unfold Qdiv in H; nra.
Qed.

(** The theorem on the series 1000000, 1000049. *)
Lemma small_rise_green_line_down_badge_witness :
  lineColor [Samples.sample 1 1000000 1; Samples.sample 2 1000049 1]
  = "#00ff88"%string /\
  periodBadge [Samples.sample 1 1000000 1; Samples.sample 2 1000049 1]
  = Some false.
Proof.
  apply (small_rise_green_line_down_badge (Samples.sample 1 1000000 1)
           [Samples.sample 2 1000049 1]);
    vm_compute; solve [reflexivity | discriminate].
Defined.

End PeriodFacts.
